(** * Voter geocoding pipeline: address normalisation, lookup, joins, buckets

    A shallow embedding of the data path of
    [scripts/geocoding.py], [scripts/spatial_joins.py] and
    [scripts/additional_analyses.py].

    Conventions.
    - Text is a list of characters.  The character classes follow Python's
      [str] methods and the [re] module on 7-bit text: [str.upper] maps
      [a-z] to [A-Z], [\s] and [str.strip] use the ASCII whitespace set of
      [str.isspace], [\w] is [[A-Za-z0-9_]].  Code points from 128 up are
      outside the modelled alphabet; here they are inert symbols.
    - A missing cell (pandas [NaN] / [None] / [NaT]) is [None].
    - Coordinates and rates are rationals [Q]: every finite float is one, and
      the arithmetic on them is taken exact.  A comparison of a Euclidean
      distance against a radius is made on the squares, which avoids the
      square root.
    - A Python [dict] is a [gmap].
    - What the geometry and date libraries decide is a parameter: the
      point-in-polygon predicate of [gpd.sjoin] and the parser behind
      [pd.to_datetime].  Reprojection ([to_crs]) moves geometries only and
      is left out; both layers are taken in the working reference system.
    - A run's effects are data: the files written and the figures printed
      are fields of the value a run yields.  The geocoder's [None] is
      Python's [None]; the [None] of [spatial_join_county] is the
      [ZeroDivisionError] that ends the run. *)

From Stdlib Require Import QArith Qround Lqa Ascii String List ZArith.
From stdpp Require Import gmap strings list fin_maps sorting pretty.

Local Open Scope char_scope.

(** Text as the scripts see it: a sequence of characters. *)
Abbreviation text := (list ascii).

(** A string literal as [text]. *)
Notation "'txt' s" := (list_ascii_of_string s%string) (at level 9, only parsing).

(** ** Character classes and the [re] primitives used by the scripts *)

Module pystr.

Definition code (c : ascii) : nat := nat_of_ascii c.

Definition in_range (lo hi : nat) (c : ascii) : bool :=
  (lo <=? code c)%nat && (code c <=? hi)%nat.

(** [str.isspace] on 7-bit text, also the class [\s]:
    TAB LF VT FF CR, FS GS RS US, and the space. *)
Definition is_space (c : ascii) : bool :=
  in_range 9 13 c || in_range 28 32 c.

(** The class [\w]: letters, digits and the underscore. *)
Definition is_word (c : ascii) : bool :=
  in_range 48 57 c || in_range 65 90 c || in_range 97 122 c
  || bool_decide (c = "_").

(** [str.upper], one character. *)
Definition upper_char (c : ascii) : ascii :=
  if in_range 97 122 c then ascii_of_nat (code c - 32) else c.

Definition upper (s : text) : text := map upper_char s.

(** [str.lower], one character. *)
Definition lower_char (c : ascii) : ascii :=
  if in_range 65 90 c then ascii_of_nat (code c + 32) else c.

Definition lower (s : text) : text := map lower_char s.

Fixpoint lstrip (s : text) : text :=
  match s with
  | c :: t => if is_space c then lstrip t else s
  | [] => []
  end.

Fixpoint rstrip (s : text) : text :=
  match s with
  | c :: t =>
      match rstrip t with
      | [] => if is_space c then [] else [c]
      | t' => c :: t'
      end
  | [] => []
  end.

(** [str.strip()] with no argument. *)
Definition strip (s : text) : text := rstrip (lstrip s).

(** [needle in haystack] on strings. *)
Fixpoint starts_with (p s : text) : bool :=
  match p, s with
  | [], _ => true
  | a :: p', c :: s' => bool_decide (a = c) && starts_with p' s'
  | _ :: _, [] => false
  end.

Fixpoint contains (needle hay : text) : bool :=
  starts_with needle hay ||
  match hay with
  | _ :: t => contains needle t
  | [] => false
  end.

End pystr.

Module pyre.
Import pystr.

(** [re.sub(r'[,.\-#]', ' ', s)]: every character of the class is a match
    of length one. *)
Definition is_punct (c : ascii) : bool :=
  bool_decide (c = ",") || bool_decide (c = ".")
  || bool_decide (c = "-") || bool_decide (c = "#").

Definition sub_punct (s : text) : text :=
  map (fun c => if is_punct c then " " else c) s.

(** [re.sub(r'\s+', ' ', s)]: a maximal run of whitespace is one match.
    [in_run] says that the previous character belonged to a run whose
    replacement is already emitted. *)
Fixpoint sub_spaces_go (in_run : bool) (s : text) : text :=
  match s with
  | [] => []
  | c :: t =>
      if is_space c
      then (if in_run then sub_spaces_go true t
            else " " :: sub_spaces_go true t)
      else c :: sub_spaces_go false t
  end.

Definition sub_spaces (s : text) : text := sub_spaces_go false s.

(** The assertion [\b]: exactly one of the two neighbours is a word
    character; beyond either end of the string counts as a non-word. *)
Definition word_side (o : option ascii) : bool :=
  match o with Some c => is_word c | None => false end.

Definition boundary (before after : option ascii) : bool :=
  xorb (word_side before) (word_side after).

(** [prefix_of pat s] is the rest of [s] after the literal [pat]. *)
Fixpoint prefix_of (pat s : text) : option text :=
  match pat, s with
  | [], _ => Some s
  | a :: pat', c :: s' => if bool_decide (a = c) then prefix_of pat' s' else None
  | _ :: _, [] => None
  end.

(** Does [\b pat \b] match at the head of [s], [prev] being the character
    just before it? *)
Definition match_word_at (pat : text) (prev : option ascii) (s : text) : bool :=
  boundary prev (head s) &&
  match prefix_of pat s with
  | Some rest => boundary (from_option Some prev (last pat)) (head rest)
  | None => false
  end.

(** [re.sub(r'\bPAT\b', repl, s)] for a literal, non-empty [PAT]: scan
    from the left; at a match emit [repl] and resume after the match
    ([skip] counts the characters of the match still to pass over),
    otherwise copy one character. *)
Fixpoint sub_word_go (pat repl : text) (prev : option ascii) (skip : nat)
    (s : text) : text :=
  match s with
  | [] => []
  | c :: t =>
      match skip with
      | S k => sub_word_go pat repl (Some c) k t
      | O =>
          if match_word_at pat prev s
          then repl ++ sub_word_go pat repl (Some c) (length pat - 1) t
          else c :: sub_word_go pat repl (Some c) 0 t
      end
  end.

Definition sub_word (pat repl s : text) : text := sub_word_go pat repl None 0 s.

End pyre.

(** ** [scripts/geocoding.py] *)

Module geocoding.
Import pystr pyre.

(** A point geometry in the projected plane. *)
Record Point := { px : Q; py : Q }.

(** A row of the voter registration extract, with the columns the
    scripts read. *)
Record Voter := {
  voter_status_desc : option text;
  res_street_address : option text;
  party_cd : option text;
  birth_year : option Z;
  registr_dt : option text }.

(** The reference address layer: named attribute columns and, per row,
    the cells and the point geometry. *)
Record AddressRow := { cells : list (text * option text); geometry : Point }.
Record Addresses := { columns : list text; rows : list AddressRow }.

(** [row[col]]; a cell that is absent reads as missing. *)
Fixpoint cell_of (cs : list (text * option text)) (col : text) : option text :=
  match cs with
  | [] => None
  | (k, v) :: t => if bool_decide (k = col) then v else cell_of t col
  end.

Definition cell (r : AddressRow) (col : text) : option text := cell_of (cells r) col.

(** The [replacements] dict of [enhanced_clean], in insertion order. *)
Definition replacements : list (text * text) :=
  [ (txt "STREET", txt "ST");
    (txt "AVENUE", txt "AVE");
    (txt "ROAD", txt "RD");
    (txt "DRIVE", txt "DR");
    (txt "LANE", txt "LN");
    (txt "COURT", txt "CT");
    (txt "CIRCLE", txt "CIR");
    (txt "PLACE", txt "PL") ].

Definition apply_replacements (addr : text) : text :=
  fold_left (fun acc pr => sub_word pr.1 pr.2 acc) replacements addr.

(** [enhanced_clean(addr)]; [None] is a cell for which [pd.isna] holds,
    [Some a] a cell whose [str()] is [a]. *)
Definition enhanced_clean (addr : option text) : text :=
  match addr with
  | None => []
  | Some a =>
      let addr := strip (upper a) in
      let addr := sub_punct addr in
      let addr := apply_replacements addr in
      strip (sub_spaces addr)
  end.

(** [voters[voters['voter_status_desc'] == 'ACTIVE']] *)
Definition ACTIVE : text := txt "ACTIVE".

Definition active_voters (voters : list Voter) : list Voter :=
  filter (λ v, voter_status_desc v = Some ACTIVE) voters.

(** The [clean_address] column of the active voters. *)
Definition with_clean_address (active : list Voter) : list (Voter * text) :=
  map (λ v, (v, enhanced_clean (res_street_address v))) active.

(** The columns whose upper-cased name contains ADDR, STREET or FULL. *)
Definition address_like (col : text) : bool :=
  existsb (λ x, contains x (upper col)) [txt "ADDR"; txt "STREET"; txt "FULL"].

Definition addr_cols (addresses : Addresses) : list text :=
  filter (λ col, address_like col = true) (columns addresses).

(** The [clean_address] column of the reference layer, next to the
    geometry. *)
Definition reference_rows (addresses : Addresses) (addr_col : text)
    : list (text * Point) :=
  map (λ r, (enhanced_clean (cell r addr_col), geometry r)) (rows addresses).

(** One turn of the loop that fills [addr_lookup]. *)
Definition add_address (addr_lookup : gmap text Point) (row : text * Point)
    : gmap text Point :=
  let clean_addr := row.1 in
  if bool_decide (clean_addr ≠ []) && bool_decide (addr_lookup !! clean_addr = None)
  then <[clean_addr := row.2]> addr_lookup
  else addr_lookup.

Definition build_lookup (ref : list (text * Point)) : gmap text Point :=
  fold_left add_address ref ∅.

(** A matched voter: the voter's own columns, the clean address, and
    the [x], [y], [matched] entries added by [voter_dict.update]. *)
Record Geocoded := {
  voter : Voter;
  clean_address : text;
  x : Q;
  y : Q;
  matched : bool }.

(** One turn of the matching loop; the state is [matches] and
    [matched_count]. *)
Definition match_step (addr_lookup : gmap text Point)
    (st : list Geocoded * nat) (row : Voter * text) : list Geocoded * nat :=
  match addr_lookup !! row.2 with
  | Some m =>
      (st.1 ++ [ {| voter := row.1; clean_address := row.2;
                    x := px m; y := py m; matched := true |} ],
       S st.2)
  | None => st
  end.

Definition match_voters (addr_lookup : gmap text Point)
    (active : list (Voter * text)) : list Geocoded * nat :=
  fold_left (match_step addr_lookup) active ([], 0%nat).

(** Lines 40-41, 81 and 121-135 for a given lookup. *)
Definition geocode (voters : list Voter) (addr_lookup : gmap text Point)
    : list Geocoded * nat :=
  match_voters addr_lookup (with_clean_address (active_voters voters)).

(** [(matched_count / total_voters) * 100 if total_voters > 0 else 0] *)
Definition success_rate (matched_count total_voters : nat) : Q :=
  if (0 <? total_voters)%nat
  then (inject_Z (Z.of_nat matched_count) / inject_Z (Z.of_nat total_voters) * 100)%Q
  else 0%Q.

Record Report := {
  printed_total_voters : nat;
  printed_geocoded : nat;
  printed_success_rate : Q }.

(** What a run leaves behind: the value returned, the files written
    (directory, file name, rows) and the figures printed. *)
Record Outcome := {
  returned : option (list Geocoded);
  written : list (text * text * list Geocoded);
  report : option Report }.

Definition nothing : Outcome :=
  {| returned := None; written := []; report := None |}.

(** [ultra_fast_geocode_county], after the voter file is read. *)
Definition ultra_fast_geocode_county (county_name : text) (voters : list Voter)
    (addresses : Addresses) (output_dir : text) : Outcome :=
  let active := with_clean_address (active_voters voters) in
  match addr_cols addresses with
  | [] => nothing
  | addr_col :: _ =>
      let addr_lookup := build_lookup (reference_rows addresses addr_col) in
      let '(matches, matched_count) := match_voters addr_lookup active in
      match matches with
      | _ :: _ =>
          let output_file := lower county_name ++ txt "_voters_geocoded.gpkg" in
          let total := length active in
          {| returned := Some matches;
             written := [(output_dir, output_file, matches)];
             report := Some {| printed_total_voters := total;
                               printed_geocoded := matched_count;
                               printed_success_rate :=
                                 success_rate matched_count total |} |}
      | [] => nothing
      end
  end.

End geocoding.

(** ** [scripts/spatial_joins.py] *)

Module spatial_joins.
Import pystr geocoding.

(** A parcel: its polygon, as the ring of its vertices, and the
    property value. *)
Record Parcel := { polygon : list Point; parval : option Q }.

(** A row of [gpd.sjoin(voters, parcels, how='left', ...)]: the index and
    columns of the left row, and the index and columns of the right row,
    missing when nothing matched. *)
Record SjoinRow := {
  index_left : nat;
  left_row : Geocoded;
  index_right : option nat;
  right_row : option Parcel }.

(** A row of the saved join: [county] added, [index_right] dropped. *)
Record JoinedRow := {
  voter_index : nat;
  voter_row : Geocoded;
  parcel_row : option Parcel;
  county : text }.

Record JoinOutcome := {
  joined : list JoinedRow;
  joined_file : text * text;
  successful_joins : nat;
  join_rate : Q }.

Section sjoin.
(** The predicate ['within'] of the geometry library: the point lies
    in the interior of the polygon. *)
Variable within : Point → list Point → bool.

Definition location (v : Geocoded) : Point := {| px := x v; py := y v |}.

(** The right rows that contain the point, with their indices. *)
Definition containing (parcels : list Parcel) (p : Point) : list (nat * Parcel) :=
  filter (λ ip, within p (polygon ip.2) = true) (imap (λ i pc, (i, pc)) parcels).

Definition sjoin_one (parcels : list Parcel) (i : nat) (v : Geocoded)
    : list SjoinRow :=
  match containing parcels (location v) with
  | [] => [ {| index_left := i; left_row := v;
               index_right := None; right_row := None |} ]
  | hits =>
      map (λ ip, {| index_left := i; left_row := v;
                    index_right := Some ip.1; right_row := Some ip.2 |}) hits
  end.

(** [gpd.sjoin(voters, parcels, how='left', predicate='within')] *)
Definition sjoin_left (voters : list Geocoded) (parcels : list Parcel)
    : list SjoinRow :=
  concat (imap (sjoin_one parcels) voters).

(** [len(joined.dropna(subset=['index_right']))] *)
Definition count_matched (rows : list SjoinRow) : nat :=
  length (filter (λ r, index_right r ≠ None) rows).

(** [spatial_join_county], both layers read and in the target
    reference system.  [None] is the [ZeroDivisionError] of the join
    rate on an empty voter layer. *)
Definition spatial_join_county (county_name : text) (voters : list Geocoded)
    (parcels : list Parcel) (output_dir : text) : option JoinOutcome :=
  let joined := sjoin_left voters parcels in
  let successful := count_matched joined in
  match voters with
  | [] => None
  | _ :: _ =>
      let join_rate : Q :=
        (inject_Z (Z.of_nat successful) / inject_Z (Z.of_nat (length voters)) * 100)%Q in
      let joined :=
        map (λ r, {| voter_index := index_left r; voter_row := left_row r;
                     parcel_row := right_row r; county := county_name |}) joined in
      Some {| joined := joined;
              joined_file :=
                (output_dir, lower county_name ++ txt "_voters_with_parcels.gpkg");
              successful_joins := successful;
              join_rate := join_rate |}
  end.
End sjoin.

End spatial_joins.

(** ** [scripts/additional_analyses.py] *)

Module additional_analyses.
Import pystr geocoding.

(** [df.loc[mask, col] = value] on one column. *)
Definition loc_assign {A} (mask : list bool) (value : A) (col : list A) : list A :=
  zip_with (λ (m : bool) old, if m then value else old) mask col.

(** *** Analysis 1 *)

Definition search_radius : Q := 2000%Q.

(** The square of the Euclidean distance, [np.sum((coords - coord) ** 2)]. *)
Definition dist2 (coord other : Point) : Q :=
  ((px other - px coord) ^ 2 + (py other - py coord) ^ 2)%Q.

(** [(distances > 0) & (distances <= search_radius)], on the squares. *)
Definition in_radius (coord other : Point) : bool :=
  negb (Qle_bool (dist2 coord other) 0%Q)
  && Qle_bool (dist2 coord other) (search_radius ^ 2)%Q.

Definition neighbors_within_radius (coords : list Point) (coord : Point) : nat :=
  length (filter (λ other, in_radius coord other = true) coords).

Definition density_scores (coords : list Point) : list nat :=
  map (neighbors_within_radius coords) coords.

(** [np.percentile(a, q)] with the default linear interpolation; [None]
    is the [nan] of an empty array. *)
Definition percentile (a : list Z) (q : Z) : option Q :=
  let arr := merge_sort Z.le a in
  match arr with
  | [] => None
  | _ :: _ =>
      let n := Z.of_nat (length arr) in
      let virtual_index := (inject_Z (n - 1) * (inject_Z q / 100))%Q in
      let previous_index := Qfloor virtual_index in
      let next_index := Z.min (previous_index + 1) (n - 1) in
      let gamma := (virtual_index - inject_Z previous_index)%Q in
      let previous := nth (Z.to_nat previous_index) arr 0%Z in
      let next := nth (Z.to_nat next_index) arr 0%Z in
      Some (inject_Z previous + (inject_Z next - inject_Z previous) * gamma)%Q
  end.

(** [scores >= threshold] and [scores <= threshold]; a comparison with
    [nan] is false. *)
Definition ge_threshold (threshold : option Q) (score : Z) : bool :=
  match threshold with
  | Some t => Qle_bool t (inject_Z score)
  | None => false
  end.

Definition le_threshold (threshold : option Q) (score : Z) : bool :=
  match threshold with
  | Some t => Qle_bool (inject_Z score) t
  | None => false
  end.

(** The [urban_rural] column. *)
Definition urban_rural (density : list nat) : list text :=
  let scores := map Z.of_nat density in
  let urban_threshold := percentile scores 75 in
  let rural_threshold := percentile scores 25 in
  let col := map (λ _, txt "Suburban") scores in
  let col := loc_assign (map (ge_threshold urban_threshold) scores) (txt "Urban") col in
  let col := loc_assign (map (le_threshold rural_threshold) scores) (txt "Rural") col in
  col.

(** The two columns that [analysis_1_urban_rural_classification] adds. *)
Definition analysis_1_urban_rural_classification (coords : list Point)
    : list (nat * text) :=
  let density := density_scores coords in
  zip density (urban_rural density).

(** *** Analysis 5 *)

Section registration.
(** [pd.to_datetime(_, errors='coerce').dt.year] on one cell: the year
    of the parsed date, missing when the cell does not parse. *)
Variable to_datetime_year : text → option Z.

Definition registration_year (v : Voter) : option Z :=
  match registr_dt v with
  | Some d => to_datetime_year d
  | None => None
  end.

(** A comparison of the year column with a constant; false on a
    missing year. *)
Definition year_is (test : Z → bool) (year : option Z) : bool :=
  match year with Some yr => test yr | None => false end.

(** The [registration_period] column. *)
Definition registration_period (data : list Voter) : list text :=
  let years := map registration_year data in
  let col := map (λ _, txt "Unknown") data in
  let col := loc_assign (map (year_is (λ yr, yr <? 2000)%Z) years)
               (txt "Before 2000") col in
  let col := loc_assign (map (year_is (λ yr, (2000 <=? yr) && (yr <? 2010))%Z) years)
               (txt "2000-2009") col in
  let col := loc_assign (map (year_is (λ yr, (2010 <=? yr) && (yr <? 2020))%Z) years)
               (txt "2010-2019") col in
  let col := loc_assign (map (year_is (λ yr, 2020 <=? yr)%Z) years)
               (txt "2020-Present") col in
  col.

(** The two columns that [analysis_5_voter_registration_date_patterns]
    adds to a table that has a [registr_dt] column. *)
Definition analysis_5_voter_registration_date_patterns (data : list Voter)
    : list (option Z * text) :=
  zip (map registration_year data) (registration_period data).
End registration.

End additional_analyses.

(** ** [scripts/geocoding.py]: reading the voter file, [main] *)

Module geocoding_main.
Import pystr geocoding.

(** [pd.read_csv(voter_file, sep='\t', nrows=limit_voters)] when
    [limit_voters] is truthy, the whole file otherwise. *)
Definition read_voters (voter_file : list Voter) (limit_voters : option nat)
    : list Voter :=
  match limit_voters with
  | Some (S n) => take (S n) voter_file
  | Some O => voter_file
  | None => voter_file
  end.

(** [ultra_fast_geocode_county] from the rows of the voter file on. *)
Definition ultra_fast_geocode_county_from (county_name : text)
    (voter_file : list Voter) (addresses : Addresses) (output_dir : text)
    (limit_voters : option nat) : Outcome :=
  ultra_fast_geocode_county county_name (read_voters voter_file limit_voters)
    addresses output_dir.

(** The processing mode that [main] reads from the user. *)
Definition limit_of_choice (input : text) : option nat :=
  let choice := strip input in
  if bool_decide (choice = txt "1") then Some 1000%nat
  else if bool_decide (choice = txt "2") then None
  else Some 1000%nat.

(** [main]: both counties, with the limit the user chose. *)
Definition main (input : text) (pitt_file : list Voter) (pitt_gdb : Addresses)
    (beaufort_file : list Voter) (beaufort_gdb : Addresses) : Outcome * Outcome :=
  let limit_voters := limit_of_choice input in
  let output_dir := txt "../outputs" in
  (ultra_fast_geocode_county_from (txt "Pitt") pitt_file pitt_gdb output_dir
     limit_voters,
   ultra_fast_geocode_county_from (txt "Beaufort") beaufort_file beaufort_gdb
     output_dir limit_voters).

End geocoding_main.

(** ** [scripts/spatial_joins.py]: column choice, party statistics, [main] *)

Module spatial_joins_main.
Import pystr geocoding spatial_joins.

(** The candidates for the property value column: the columns whose
    lower-cased name contains parval or value. *)
Definition parval_cols (columns : list text) : list text :=
  filter (λ col, contains (txt "parval") (lower col)
                 || contains (txt "value") (lower col) = true) columns.

(** [parval_cols[0]], or [None]. *)
Definition parval_field (columns : list text) : option text :=
  head (parval_cols columns).

(** The property value and the party of a joined row. *)
Definition row_parval (r : JoinedRow) : option Q :=
  match parcel_row r with
  | Some pc => parval pc
  | None => None
  end.

Definition row_party (r : JoinedRow) : option text := party_cd (voter (voter_row r)).

(** [joined_data.dropna(subset=[parval_field, 'party_cd'])] *)
Definition valid_data (joined_data : list JoinedRow) : list JoinedRow :=
  filter (λ r, row_parval r ≠ None ∧ row_party r ≠ None) joined_data.

(** [valid_data[valid_data['party_cd'].isin(['DEM', 'REP', 'UNA'])]] *)
Definition main_party_names : list text := [txt "DEM"; txt "REP"; txt "UNA"].

Definition isin (names : list text) (cell : option text) : bool :=
  match cell with
  | Some p => bool_decide (p ∈ names)
  | None => false
  end.

Definition main_parties (joined_data : list JoinedRow) : list JoinedRow :=
  filter (λ r, isin main_party_names (row_party r) = true) (valid_data joined_data).

(** The [count] column of [party_stats]: one entry per party that has
    rows.  The other aggregates are floating-point and left out. *)
Definition party_count (joined_data : list JoinedRow) (party : text) : nat :=
  length (filter (λ r, row_party r = Some party) (main_parties joined_data)).

Definition party_stats_count (joined_data : list JoinedRow) : list (text * nat) :=
  omap (λ party,
          match party_count joined_data party with
          | O => None
          | n => Some (party, n)
          end) main_party_names.

(** [pd.concat(all_joined_data, ignore_index=True)]: the rows in order,
    indexed anew by position. *)
Definition concat_ignore_index (frames : list (list JoinedRow)) : list JoinedRow :=
  imap (λ i r, {| voter_index := i; voter_row := voter_row r;
                  parcel_row := parcel_row r; county := county r |})
       (concat frames).

Record MainOutcome := {
  all_joined_data : list (list JoinedRow);
  combined_data : option (list JoinedRow) }.

Section main.
Variable within : Point → list Point → bool.

(** One [try] block of [main]: a county whose join raises adds
    nothing. *)
Definition try_county (all_joined_data : list (list JoinedRow))
    (county_name : text) (voters : list Geocoded) (parcels : list Parcel)
    : list (list JoinedRow) :=
  match spatial_join_county within county_name voters parcels (txt "../outputs") with
  | Some out => all_joined_data ++ [joined out]
  | None => all_joined_data
  end.

Definition main (pitt_voters : list Geocoded) (pitt_parcels : list Parcel)
    (beaufort_voters : list Geocoded) (beaufort_parcels : list Parcel)
    : MainOutcome :=
  let all_joined_data := [] in
  let all_joined_data :=
    try_county all_joined_data (txt "Pitt") pitt_voters pitt_parcels in
  let all_joined_data :=
    try_county all_joined_data (txt "Beaufort") beaufort_voters beaufort_parcels in
  {| all_joined_data := all_joined_data;
     combined_data :=
       if bool_decide (length all_joined_data = 2%nat)
       then Some (concat_ignore_index all_joined_data)
       else None |}.
End main.

End spatial_joins_main.

(** ** [scripts/additional_analyses.py]: analyses 2 to 5 *)

Module additional_analyses_more.
Import pystr geocoding spatial_joins additional_analyses.

(** The point of a row of [combined_data]. *)
Definition row_point (r : JoinedRow) : Point := location (voter_row r).

(** The candidates for the property value column in the analyses: the
    columns whose lower-cased name contains parval. *)
Definition parval_cols (columns : list text) : list text :=
  filter (λ col, contains (txt "parval") (lower col) = true) columns.

(** *** Analysis 2 *)

(** [df.nlargest(n, key)]: the [n] rows of largest key, largest first,
    rows of equal key in their order in [df]. *)
Fixpoint insert_desc {A} (key : A → nat) (a : A) (sorted : list A) : list A :=
  match sorted with
  | [] => [a]
  | b :: rest =>
      if (key b <=? key a)%nat then a :: sorted
      else b :: insert_desc key a rest
  end.

Definition sort_desc {A} (key : A → nat) (l : list A) : list A :=
  foldr (insert_desc key) [] l.

Definition nlargest {A} (n : nat) (key : A → nat) (l : list A) : list A :=
  take n (sort_desc key l).

Record School := {
  school_id : text;
  school_county : text;
  school_geometry : Point }.

(** The loop over [high_density_voters]: every fourth one gets a school. *)
Definition school_at (i : nat) (voter : JoinedRow * nat) : option School :=
  if bool_decide (i mod 4 = 0)%nat
  then Some {| school_id := txt "School_" ++ list_ascii_of_string (pretty (i / 4 + 1)%nat);
               school_county := county voter.1;
               school_geometry := row_point voter.1 |}
  else None.

Definition schools_data (combined_data : list (JoinedRow * nat)) : list School :=
  omap id (imap school_at (nlargest 20 snd combined_data)).

Definition buffer_distances : list Q := [1000%Q; 2000%Q; 5000%Q].

Record BufferResult := {
  distance_ft : Q;
  voters_in_buffer : list (nat * School);
  within_school : list bool }.

Section buffers.
(** [in_buffer d s p]: the point [p] is within the polygon
    [s.buffer(d)] of the geometry library. *)
Variable in_buffer : Q → Point → Point → bool.

(** [gpd.sjoin(combined_data, school_buffers, predicate='within')]: one
    row per voter and buffer that holds it, under the voter's index. *)
Definition sjoin_buffers (distance : Q) (combined_data : list (JoinedRow * nat))
    (schools : list School) : list (nat * School) :=
  concat (imap (λ i r,
                  map (λ s, (i, s))
                      (filter (λ s, in_buffer distance (school_geometry s)
                                      (row_point r.1) = true) schools))
               combined_data).

(** [combined_data.index.isin(voters_in_buffer.index)] *)
Definition index_isin (combined_data : list (JoinedRow * nat))
    (joined : list (nat * School)) : list bool :=
  imap (λ i _, bool_decide (i ∈ map fst joined)) combined_data.

Definition buffer_result (combined_data : list (JoinedRow * nat))
    (schools : list School) (distance : Q) : BufferResult :=
  let joined := sjoin_buffers distance combined_data schools in
  {| distance_ft := distance;
     voters_in_buffer := joined;
     within_school := index_isin combined_data joined |}.

(** [analysis_2_buffer_analysis_schools] on the rows with their density
    score.  Without a school there is no geometry column to buffer and
    the run raises: [None]. *)
Definition analysis_2_buffer_analysis_schools
    (combined_data : list (JoinedRow * nat))
    : option (list School * list BufferResult) :=
  match schools_data combined_data with
  | [] => None
  | schools => Some (schools, map (buffer_result combined_data schools) buffer_distances)
  end.
End buffers.

(** [combined_data[buffer_col].sum()] of [create_summary_report]: the
    number of flagged rows. *)
Definition within_count (buffer_col : list bool) : nat :=
  sum_list (map Nat.b2n buffer_col).

(** *** Analysis 3 *)

(** [2025 - birth_year] *)
Definition age (v : Voter) : option Z :=
  match birth_year v with
  | Some yr => Some (2025 - yr)%Z
  | None => None
  end.

(** The [age_group] column. *)
Definition age_group (data : list Voter) : list text :=
  let ages := map age data in
  let col := map (λ _, txt "Unknown") data in
  let col := loc_assign (map (year_is (λ a, a <? 30)%Z) ages)
               (txt "Young (18-29)") col in
  let col := loc_assign (map (year_is (λ a, (30 <=? a) && (a <? 45))%Z) ages)
               (txt "Young Adult (30-44)") col in
  let col := loc_assign (map (year_is (λ a, (45 <=? a) && (a <? 65))%Z) ages)
               (txt "Middle Age (45-64)") col in
  let col := loc_assign (map (year_is (λ a, 65 <=? a)%Z) ages)
               (txt "Senior (65+)") col in
  col.

(** The two columns that [analysis_3_age_demographics_spatial] adds to a
    table that has a [birth_year] column. *)
Definition analysis_3_age_demographics_spatial (data : list Voter)
    : list (option Z * text) :=
  zip (map age data) (age_group data).

(** *** Analysis 4 *)

(** [Series.unique()]: the values in order of first appearance. *)
Fixpoint unique (l : list text) : list text :=
  match l with
  | [] => []
  | a :: t => a :: filter (λ b, b ≠ a) (unique t)
  end.

(** [ndarray.mean()] *)
Definition Qsum (xs : list Q) : Q := foldr Qplus 0%Q xs.

Definition mean (xs : list Q) : Q :=
  (Qsum xs / inject_Z (Z.of_nat (length xs)))%Q.

(** The voters of one county and the centroid of their points. *)
Definition county_voters (combined_data : list JoinedRow) (name : text)
    : list JoinedRow :=
  filter (λ r, county r = name) combined_data.

Definition center_point (voters : list JoinedRow) : Point :=
  {| px := mean (map (λ r, px (row_point r)) voters);
     py := mean (map (λ r, py (row_point r)) voters) |}.

(** The loop that fills [county_centers]. *)
Definition county_centers (combined_data : list JoinedRow) : gmap text Point :=
  fold_left (λ centers name,
               <[name := center_point (county_voters combined_data name)]> centers)
            (unique (map county combined_data)) ∅.

(** [np.quantile]-style [Series.quantile(q)] with linear interpolation;
    [None] is the [nan] of an empty column. *)
Definition Qle_decide (a b : Q) : Decision (a <= b)%Q :=
  match Qlt_le_dec b a with
  | left H => right (Qlt_not_le _ _ H)
  | right H => left H
  end.

Definition quantile (a : list Q) (q : Q) : option Q :=
  let arr := merge_sort Qle (H := Qle_decide) a in
  match arr with
  | [] => None
  | _ :: _ =>
      let n := Z.of_nat (length arr) in
      let virtual_index := (inject_Z (n - 1) * q)%Q in
      let previous_index := Qfloor virtual_index in
      let next_index := Z.min (previous_index + 1) (n - 1) in
      let gamma := (virtual_index - inject_Z previous_index)%Q in
      let previous := nth (Z.to_nat previous_index) arr 0%Q in
      let next := nth (Z.to_nat next_index) arr 0%Q in
      Some (previous + (next - previous) * gamma)%Q
  end.

(** [d <= t] and [d > t] against a quantile; false against [nan]. *)
Definition le_quantile (t : option Q) (d : Q) : bool :=
  match t with Some t => Qle_bool d t | None => false end.

Definition gt_quantile (t : option Q) (d : Q) : bool :=
  match t with Some t => negb (Qle_bool d t) | None => false end.

(** The [distance_category] column. *)
Definition distance_category (distance_to_center : list Q) : list text :=
  let q25 := quantile distance_to_center (1 # 4) in
  let q50 := quantile distance_to_center (1 # 2) in
  let q75 := quantile distance_to_center (3 # 4) in
  let col := map (λ _, txt "Unknown") distance_to_center in
  let col := loc_assign (map (le_quantile q25) distance_to_center)
               (txt "Very Close (0-25%)") col in
  let col := loc_assign (map (λ d, gt_quantile q25 d && le_quantile q50 d)
                           distance_to_center)
               (txt "Close (25-50%)") col in
  let col := loc_assign (map (λ d, gt_quantile q50 d && le_quantile q75 d)
                           distance_to_center)
               (txt "Far (50-75%)") col in
  let col := loc_assign (map (gt_quantile q75) distance_to_center)
               (txt "Very Far (75-100%)") col in
  col.

Section centers.
(** [voter_point.distance(center_point)] of the geometry library. *)
Variable distance : Point → Point → Q.

(** [calc_distance_to_center]; [None] is the [KeyError] of
    [county_centers[county]]. *)
Definition calc_distance_to_center (centers : gmap text Point) (row : JoinedRow)
    : option Q :=
  match centers !! county row with
  | Some center => Some (distance (row_point row) center)
  | None => None
  end.

(** The columns that [analysis_4_distance_to_county_centers] adds, and
    the centers it saves. *)
Definition analysis_4_distance_to_county_centers (combined_data : list JoinedRow)
    : option (list (Q * text) * list (text * Point)) :=
  let centers := county_centers combined_data in
  match mapM (calc_distance_to_center centers) combined_data with
  | Some distance_to_center =>
      Some (zip distance_to_center (distance_category distance_to_center),
            map (λ name, (name, default {| px := 0; py := 0 |} (centers !! name)))
                (unique (map county combined_data)))
  | None => None
  end.
End centers.

(** *** Analysis 5, the recent registrants *)

Section recent.
Variable to_datetime_year : text → option Z.

(** [combined_data[combined_data['registration_year'] >= 2020]] *)
Definition recent_registrants (data : list Voter) : list Voter :=
  filter (λ v, year_is (λ yr, 2020 <=? yr)%Z
                 (registration_year to_datetime_year v) = true) data.
End recent.

End additional_analyses_more.

Import pystr pyre geocoding spatial_joins additional_analyses.
Import geocoding_main spatial_joins_main additional_analyses_more.

(** ** Vocabulary of the statements

    Predicates and readings used to state and prove the properties below;
    none of them is part of the scripts. *)

(** A stripped text neither starts nor ends with whitespace. *)
Definition stripped (s : text) : Prop := lstrip s = s ∧ rstrip s = s.

(** [spaced b s]: every whitespace character of [s] is a single space
    that follows a non-space ([b] tells whether a space precedes [s]). *)
Fixpoint spaced (b : bool) (s : text) : bool :=
  match s with
  | [] => true
  | c :: t =>
      if is_space c then bool_decide (c = " ") && negb b && spaced true t
      else spaced false t
  end.

(** A non-empty run of word characters. *)
Definition wordy (w : text) : Prop :=
  w ≠ [] ∧ Forall (λ c, is_word c = true) w.

(** The longest prefix of word characters, and what follows it. *)
Fixpoint word_run (s : text) : text * text :=
  match s with
  | c :: t =>
      if is_word c then (c :: (word_run t).1, (word_run t).2) else ([], s)
  | [] => ([], [])
  end.

(** The words of a text, left to right. *)
Fixpoint words (s : text) : list text :=
  match s with
  | [] => []
  | c :: t =>
      if is_word c then
        match t with
        | c' :: _ =>
            if is_word c' then
              match words t with
              | w :: ws => (c :: w) :: ws
              | [] => [[c]]
              end
            else [c] :: words t
        | [] => [[c]]
        end
      else words t
  end.

(** What [re.sub(r'\bPAT\b', repl, _)] does to a single word. *)
Definition subst_word (pat repl w : text) : text :=
  if decide (w = pat) then repl else w.

(** The table applied to one word. *)
Definition subst_all (rs : list (text * text)) (w : text) : text :=
  fold_left (λ acc pr, subst_word pr.1 pr.2 acc) rs w.

Definition sub_all (rs : list (text * text)) (s : text) : text :=
  fold_left (λ acc pr, sub_word pr.1 pr.2 acc) rs s.

(** [inert rs x]: [x] is none of the patterns of [rs]. *)
Definition inert (rs : list (text * text)) (x : text) : Prop :=
  Forall (λ pr, x ≠ pr.1) rs.

(** The shape of a key that [enhanced_clean] returns: nothing that
    [str.upper] or the punctuation class would touch, no whitespace at
    the ends, single spaces inside, and no word left to abbreviate. *)
Definition canonical (s : text) : Prop :=
  Forall (λ c, upper_char c = c ∧ is_punct c = false) s
  ∧ stripped s
  ∧ spaced false s = true
  ∧ Forall (inert replacements) (words s).

(** What the loop appends for one active voter, if anything. *)
Definition geocode_row (addr_lookup : gmap text Point) (row : Voter * text)
    : option Geocoded :=
  match addr_lookup !! row.2 with
  | Some m => Some {| voter := row.1; clean_address := row.2;
                      x := px m; y := py m; matched := true |}
  | None => None
  end.

(** The voters that the geocoder keeps. *)
Definition hit (addr_lookup : gmap text Point) (v : Voter) : Prop :=
  voter_status_desc v = Some ACTIVE
  ∧ is_Some (addr_lookup !! enhanced_clean (res_street_address v)).

(** The voters that a run of the geocoder matches: none when the
    reference layer has no address column. *)
Definition matched_voters (voters : list Voter) (addresses : Addresses) : list Voter :=
  match addr_cols addresses with
  | [] => []
  | addr_col :: _ => filter (hit (build_lookup (reference_rows addresses addr_col))) voters
  end.

Definition Qlt_bool (a b : Q) : bool := negb (Qle_bool b a).

(** A geometry predicate for parcels that are axis-parallel rectangles:
    the point lies strictly between the extreme vertices in both
    directions. *)
Definition within_box (p : Point) (ring : list Point) : bool :=
  existsb (λ v, Qlt_bool (px v) (px p)) ring
  && existsb (λ v, Qlt_bool (px p) (px v)) ring
  && existsb (λ v, Qlt_bool (py v) (py p)) ring
  && existsb (λ v, Qlt_bool (py p) (py v)) ring.

Definition rectangle (x0 y0 x1 y1 : Z) : list Point :=
  [ {| px := inject_Z x0; py := inject_Z y0 |};
    {| px := inject_Z x1; py := inject_Z y0 |};
    {| px := inject_Z x1; py := inject_Z y1 |};
    {| px := inject_Z x0; py := inject_Z y1 |} ].

(** One voter inside two overlapping parcels. *)
Definition overlap_voters : list Geocoded :=
  [ {| voter := {| voter_status_desc := Some ACTIVE;
                   res_street_address := Some (txt "100 Oak Street");
                   party_cd := Some (txt "UNA");
                   birth_year := Some 1980%Z;
                   registr_dt := None |};
       clean_address := txt "100 OAK ST";
       x := 5; y := 5; matched := true |} ].

Definition overlap_parcels : list Parcel :=
  [ {| polygon := rectangle 0 0 10 10; parval := Some 100000%Q |};
    {| polygon := rectangle 2 2 12 12; parval := Some 250000%Q |} ].

(** The period of one row, read off its year. *)
Definition period_of (year : option Z) : text :=
  match year with
  | None => txt "Unknown"
  | Some yr =>
      if (yr <? 2000)%Z then txt "Before 2000"
      else if (yr <? 2010)%Z then txt "2000-2009"
      else if (yr <? 2020)%Z then txt "2010-2019"
      else txt "2020-Present"
  end.

(** The tier of one row, read off its score and the two thresholds:
    the assignment of "Rural" comes last and wins. *)
Definition tier_of (lower upper : option Q) (score : Z) : text :=
  if le_threshold lower score then txt "Rural"
  else if ge_threshold upper score then txt "Urban"
  else txt "Suburban".

(** Three voters more than a radius apart: all density scores are 0, and
    so are both percentiles. *)
Definition scattered : list Point :=
  [ {| px := 0; py := 0 |}; {| px := 5000; py := 0 |}; {| px := 0; py := 5000 |} ].

(** [distances <= search_radius] alone, on the squares. *)
Definition within_radius (coord other : Point) : bool :=
  Qle_bool (dist2 coord other) (search_radius ^ 2)%Q.

(** The density score as the specification words it: for the point at
    index [i], the number of points at another index whose distance from
    it is at most the radius. *)
Definition density_by_index (coords : list Point) : list nat :=
  imap (λ i coord,
          length (filter (λ jo : nat * Point, jo.1 ≠ i ∧ within_radius coord jo.2 = true)
                    (imap (λ j other, (j, other)) coords)))
       coords.

(** Two voters of one household, geocoded to the same address point. *)
Definition household : list Point :=
  [ {| px := 100; py := 200 |}; {| px := 100; py := 200 |} ].

(** A reference layer of three rows, two of which clean to the same key,
    and a voter table with one ACTIVE voter at that key. *)
Definition oak_addresses : Addresses :=
  {| columns := [txt "OBJECTID"; txt "Full_Address"];
     rows :=
       [ {| cells := [(txt "OBJECTID", Some (txt "1"));
                      (txt "Full_Address", Some (txt "100 Oak Street"))];
            geometry := {| px := 100; py := 200 |} |};
         {| cells := [(txt "OBJECTID", Some (txt "2"));
                      (txt "Full_Address", Some (txt "100 OAK ST."))];
            geometry := {| px := 999; py := 999 |} |};
         {| cells := [(txt "OBJECTID", Some (txt "3"));
                      (txt "Full_Address", None)];
            geometry := {| px := 7; py := 7 |} |} ] |}.

Definition oak_voter (status : string) : Voter :=
  {| voter_status_desc := Some (txt status);
     res_street_address := Some (txt "100 oak street");
     party_cd := Some (txt "DEM");
     birth_year := Some 1975%Z;
     registr_dt := Some (txt "03/14/2004") |}.

(** The rows that [spatial_join_county] returns. *)
Definition stamp (county_name : text) (r : SjoinRow) : JoinedRow :=
  {| voter_index := index_left r; voter_row := left_row r;
     parcel_row := right_row r; county := county_name |}.

(** The parcels with a property value among those that hold a point. *)
Definition valued_hits (within : Point → list Point → bool) (parcels : list Parcel)
    (p : Point) : list (nat * Parcel) :=
  filter (λ ip : nat * Parcel, parval ip.2 ≠ None) (containing within parcels p).

(** A row enters the party statistics. *)
Definition in_party_stats (r : JoinedRow) : Prop :=
  isin main_party_names (row_party r) = true
  ∧ row_parval r ≠ None ∧ row_party r ≠ None.

(** The age group of one row, read off its birth year. *)
Definition age_group_of (birth : option Z) : text :=
  match birth with
  | None => txt "Unknown"
  | Some yr =>
      if (1995 <? yr)%Z then txt "Young (18-29)"
      else if (1980 <? yr)%Z then txt "Young Adult (30-44)"
      else if (1960 <? yr)%Z then txt "Middle Age (45-64)"
      else txt "Senior (65+)"
  end.

(** The distance categories, nearest first. *)
Definition distance_labels : list text :=
  [txt "Very Close (0-25%)"; txt "Close (25-50%)"; txt "Far (50-75%)";
   txt "Very Far (75-100%)"].

(** How many of the three quartiles a distance exceeds, the upper
    quartile deciding first. *)
Definition distance_rank (q25 q50 q75 d : Q) : nat :=
  if negb (Qle_bool d q75) then 3
  else if negb (Qle_bool d q50) then 2
  else if negb (Qle_bool d q25) then 1
  else 0.

(** A distance for sample runs: the sum of the coordinate differences. *)
Definition gap (a b : Q) : Q := if Qle_bool a b then (b - a)%Q else (a - b)%Q.

Definition taxicab (p c : Point) : Q := (gap (px p) (px c) + gap (py p) (py c))%Q.

Definition sample_row (i : nat) (a b : Z) (name : string) : JoinedRow :=
  {| voter_index := i;
     voter_row := {| voter := oak_voter "ACTIVE"; clean_address := txt "100 OAK ST";
                     x := inject_Z a; y := inject_Z b; matched := true |};
     parcel_row := None;
     county := txt name |}.

Definition two_counties : list JoinedRow :=
  [ sample_row 0 0 0 "Pitt"; sample_row 1 10 0 "Pitt"; sample_row 2 100 100 "Beaufort";
    sample_row 3 20 45 "Pitt"; sample_row 4 100 300 "Beaufort" ].

(** The school with number [k + 1], placed at a row. *)
Definition school_of (k : nat) (voter : JoinedRow * nat) : School :=
  {| school_id := txt "School_" ++ list_ascii_of_string (pretty (k + 1)%nat);
     school_county := county voter.1;
     school_geometry := row_point voter.1 |}.

(** Descending order of the density score. *)
Definition denser_first (a b : JoinedRow * nat) : Prop := b.2 ≤ a.2.

(** The schools whose buffer of the given distance holds a row. *)
Definition schools_around (in_buffer : Q → Point → Point → bool) (distance : Q)
    (schools : list School) (r : JoinedRow * nat) : list School :=
  filter (λ s, in_buffer distance (school_geometry s) (row_point r.1) = true) schools.

(** A buffer for sample runs: within the distance along the axes. *)
Definition within_feet (distance : Q) (center p : Point) : bool :=
  Qle_bool (taxicab p center) distance.

Definition scored_rows : list (JoinedRow * nat) := map (λ r, (r, 1)) two_counties.

(** ** The model on the specification's sample inputs *)

Example clean_missing : enhanced_clean None = txt "".
Proof. reflexivity. Qed.

Example oak_lookup :
  map_to_list (build_lookup (reference_rows oak_addresses (txt "Full_Address")))
  = [(txt "100 OAK ST", {| px := 100; py := 200 |})].
Proof. vm_compute. reflexivity. Qed.

Example oak_geocoded :
  ultra_fast_geocode_county (txt "Wake")
    [oak_voter "ACTIVE"; oak_voter "INACTIVE"] oak_addresses (txt "out")
  = let row := {| voter := oak_voter "ACTIVE"; clean_address := txt "100 OAK ST";
                  x := 100; y := 200; matched := true |} in
    {| returned := Some [row];
       written := [(txt "out", txt "wake_voters_geocoded.gpkg", [row])];
       report := Some {| printed_total_voters := 1; printed_geocoded := 1;
                         printed_success_rate := success_rate 1 1 |} |}.
Proof. vm_compute. reflexivity. Qed.

Example oak_rate : (success_rate 1 1 == 100)%Q.
Proof. reflexivity. Qed.

Example clean_apt :
  enhanced_clean (Some (txt "123 Main Street, Apt #4")) = txt "123 MAIN ST APT 4".
Proof. vm_compute. reflexivity. Qed.

Example clean_oak : enhanced_clean (Some (txt "100 Oak Street")) = txt "100 OAK ST".
Proof. vm_compute. reflexivity. Qed.

Example clean_streets :
  enhanced_clean (Some (txt "  12 streetcar   place.  STREET-street_x road"))
  = txt "12 STREETCAR PL ST STREET_X RD".
Proof. vm_compute. reflexivity. Qed.

(** ** Character classes: basic facts *)

Section char_facts.

Lemma space_not_word c : is_space c = true → is_word c = false.
Proof. destruct c as [[] [] [] [] [] [] [] []]; vm_compute; congruence. Qed.

Lemma upper_char_idem c : upper_char (upper_char c) = upper_char c.
Proof. destruct c as [[] [] [] [] [] [] [] []]; reflexivity. Qed.

Lemma map_fixed {A} (f : A → A) (s : list A) :
  Forall (λ c, f c = c) s → map f s = s.
Proof. induction 1; cbn; congruence. Qed.

Lemma upper_fixed s : Forall (λ c, upper_char c = c) (upper s).
Proof.
  unfold upper. induction s; cbn; constructor; auto using upper_char_idem.
Qed.

Lemma sub_punct_clear s : Forall (λ c, is_punct c = false) (sub_punct s).
Proof.
  unfold sub_punct. induction s as [|c s IH]; cbn; constructor; auto.
  destruct (is_punct c) eqn:E; [reflexivity | exact E].
Qed.

Lemma sub_punct_fixed s : Forall (λ c, is_punct c = false) s → sub_punct s = s.
Proof.
  intros H. unfold sub_punct. apply map_fixed.
  eapply Forall_impl; [exact H|]. cbn. intros c ->. reflexivity.
Qed.

End char_facts.

(** ** Stripping *)

Section strip_facts.

Lemma rstrip_idem s : rstrip (rstrip s) = rstrip s.
Proof.
  induction s as [|c t IH]; [reflexivity|]. cbn.
  destruct (rstrip t) as [|d t'] eqn:E.
  - destruct (is_space c) eqn:Ec; cbn; [reflexivity | now rewrite Ec].
  - cbn [rstrip]. cbn [rstrip] in IH. now rewrite IH.
Qed.

Lemma rstrip_head c t :
  is_space c = false → ∃ t', rstrip (c :: t) = c :: t'.
Proof.
  intros Hc. cbn. destruct (rstrip t); rewrite ?Hc; eauto.
Qed.

Lemma lstrip_head s :
  match lstrip s with [] => True | c :: _ => is_space c = false end.
Proof.
  induction s as [|c t IH]; cbn; [exact I|].
  destruct (is_space c) eqn:E; [exact IH | exact E].
Qed.

Lemma strip_stripped s : stripped (strip s).
Proof.
  unfold stripped, strip. split; [|apply rstrip_idem].
  pose proof (lstrip_head s) as H.
  destruct (lstrip s) as [|c t]; [reflexivity|].
  destruct (rstrip_head c t H) as [t' ->]. cbn. now rewrite H.
Qed.

Lemma strip_fixed s : stripped s → strip s = s.
Proof. intros [Hl Hr]. unfold strip. now rewrite Hl. Qed.

Lemma Forall_lstrip (P : ascii → Prop) s : Forall P s → Forall P (lstrip s).
Proof.
  induction 1 as [|c t Hc Ht IH]; cbn; [constructor|].
  destruct (is_space c); [exact IH | now constructor].
Qed.

Lemma Forall_rstrip (P : ascii → Prop) s : Forall P s → Forall P (rstrip s).
Proof.
  induction 1 as [|c t Hc Ht IH]; cbn; [constructor|].
  destruct (rstrip t); [destruct (is_space c)|]; constructor; auto.
Qed.

Lemma Forall_strip (P : ascii → Prop) s : Forall P s → Forall P (strip s).
Proof. intros H. apply Forall_rstrip, Forall_lstrip, H. Qed.

End strip_facts.

(** ** Whitespace runs *)

Section space_facts.

Lemma sub_spaces_go_spaced b s : spaced b (sub_spaces_go b s) = true.
Proof.
  revert b. induction s as [|c t IH]; intros b; cbn; [reflexivity|].
  destruct (is_space c) eqn:E.
  - destruct b; [apply IH|]. cbn. apply IH.
  - cbn. rewrite E. apply IH.
Qed.

Lemma spaced_fixed b s : spaced b s = true → sub_spaces_go b s = s.
Proof.
  revert b. induction s as [|c t IH]; intros b; cbn; [reflexivity|].
  destruct (is_space c) eqn:E.
  - intros H. apply andb_prop in H as [H Ht]. apply andb_prop in H as [Hc Hb].
    apply bool_decide_eq_true in Hc. subst c.
    destruct b; [discriminate|]. f_equal. now apply IH.
  - intros H. f_equal. now apply IH.
Qed.

Lemma spaced_weaken b s : spaced b s = true → spaced false s = true.
Proof.
  destruct s as [|c t]; cbn; [reflexivity|].
  destruct (is_space c); [|trivial]. destruct b; [|trivial].
  rewrite andb_false_r. discriminate.
Qed.

Lemma spaced_lstrip b s : spaced b s = true → spaced false (lstrip s) = true.
Proof.
  revert b. induction s as [|c t IH]; intros b; cbn; [reflexivity|].
  destruct (is_space c) eqn:E.
  - intros H. apply andb_prop in H as [_ Ht]. eapply IH, Ht.
  - intros H. cbn. now rewrite E.
Qed.

Lemma spaced_rstrip b s : spaced b s = true → spaced b (rstrip s) = true.
Proof.
  revert b. induction s as [|c t IH]; intros b; cbn; [reflexivity|].
  destruct (is_space c) eqn:E.
  - intros H. apply andb_prop in H as [H Ht]. specialize (IH _ Ht).
    destruct (rstrip t); [reflexivity|].
    cbn [spaced]. rewrite E, H. exact IH.
  - intros H. specialize (IH _ H).
    destruct (rstrip t); cbn [spaced]; rewrite E; [reflexivity | exact IH].
Qed.

Lemma Forall_sub_spaces_go (P : ascii → Prop) b s :
  P " " → Forall P s → Forall P (sub_spaces_go b s).
Proof.
  intros Hsp H. revert b. induction H as [|c t Hc Ht IH]; intros b; cbn;
    [constructor|].
  destruct (is_space c); [destruct b|]; try constructor; auto.
Qed.

End space_facts.

(** ** Words: the maximal runs of word characters *)

Section word_facts.

Lemma word_run_spec s :
  s = (word_run s).1 ++ (word_run s).2
  ∧ Forall (λ c, is_word c = true) (word_run s).1
  ∧ word_side (head (word_run s).2) = false.
Proof.
  induction s as [|c t (IH1 & IH2 & IH3)]; cbn; [auto|].
  destruct (is_word c) eqn:E; cbn.
  - split_and!; [congruence | now constructor | exact IH3].
  - auto.
Qed.

(** Induction along the alternation of words and separators. *)
Lemma word_sep_ind (P : text → Prop) :
  P [] →
  (∀ c t, is_word c = false → P t → P (c :: t)) →
  (∀ w, wordy w → P w) →
  (∀ w c t, wordy w → is_word c = false → P t → P (c :: t) → P (w ++ c :: t)) →
  ∀ s, P s.
Proof.
  intros Hnil Hsep Hw Hws s.
  assert (H : ∀ n s, length s ≤ n → P s); [|now apply (H (length s))].
  clear s. induction n as [|n IH]; intros s Hlen.
  { destruct s; [exact Hnil | cbn in Hlen; lia]. }
  destruct s as [|c t]; [exact Hnil|]. cbn in Hlen.
  destruct (is_word c) eqn:E.
  - destruct (word_run_spec (c :: t)) as (Hs & Hall & Hrest).
    cbn in Hs, Hall, Hrest. rewrite E in Hs, Hall, Hrest. cbn in Hs, Hall, Hrest.
    set (w := c :: (word_run t).1) in *.
    assert (Hwordy : wordy w) by (split; [discriminate | exact Hall]).
    assert (Hlt : length t = length (word_run t).1 + length (word_run t).2).
    { injection Hs as Hs. rewrite Hs at 1. apply length_app. }
    change (c :: t) with ([c] ++ t). injection Hs as Hs.
    destruct (word_run t).2 as [|d r] eqn:Er.
    + rewrite Hs, app_nil_r. apply Hw, Hwordy.
    + rewrite Hs. change ([c] ++ (word_run t).1 ++ d :: r) with (w ++ d :: r).
      cbn in Hrest, Hlt.
      apply Hws; [exact Hwordy | exact Hrest | apply IH; lia | apply IH; cbn; lia].
  - apply Hsep; [exact E | apply IH; lia].
Qed.

Lemma words_sep c t : is_word c = false → words (c :: t) = words t.
Proof. intros H. cbn. now rewrite H. Qed.

Lemma words_word w : wordy w → words w = [w].
Proof.
  intros [Hne Hall]. induction Hall as [|c t Hc Ht IH]; [done|].
  cbn [words]. rewrite Hc. destruct t as [|d t]; [reflexivity|].
  inversion Ht as [|? ? Hd _]; subst. rewrite Hd.
  now rewrite IH.
Qed.

Lemma words_word_sep w c t :
  wordy w → is_word c = false → words (w ++ c :: t) = w :: words t.
Proof.
  intros [Hne Hall] Hc. induction Hall as [|a u Ha Hu IH]; [done|].
  cbn [words app]. rewrite Ha. destruct u as [|d u].
  - cbn [app]. rewrite Hc. now rewrite words_sep.
  - inversion Hu as [|? ? Hd _]; subst. cbn [app]. rewrite Hd.
    cbn [app] in IH. now rewrite IH.
Qed.

Lemma wordy_last prev w :
  wordy w → word_side (from_option Some prev (last w)) = true.
Proof.
  intros [Hne Hall]. induction Hall as [|a u Ha Hu IH]; [done|].
  destruct u as [|d u]; [exact Ha|].
  change (last (a :: d :: u)) with (last (d :: u)). now apply IH.
Qed.

Lemma wordy_head w rest : wordy w → word_side (head (w ++ rest)) = true.
Proof. intros [Hne Hall]. destruct Hall; [done | assumption]. Qed.

(** A text splits in one way only into a run of word characters and a
    rest that does not go on with a word character. *)
Lemma word_split_unique w1 w2 r1 r2 :
  Forall (λ c, is_word c = true) w1 → Forall (λ c, is_word c = true) w2 →
  word_side (head r1) = false → word_side (head r2) = false →
  w1 ++ r1 = w2 ++ r2 → w1 = w2 ∧ r1 = r2.
Proof.
  intros H1. revert w2. induction H1 as [|a u Ha Hu IH]; intros w2 H2 Hr1 Hr2 Heq.
  - destruct H2 as [|b v Hb Hv]; [auto|].
    cbn in Heq. subst r1. cbn in Hr1. congruence.
  - destruct H2 as [|b v Hb Hv].
    + cbn in Heq. subst r2. cbn in Hr2. congruence.
    + cbn in Heq. injection Heq as -> Heq.
      destruct (IH v Hv Hr1 Hr2 Heq) as [-> ->]. auto.
Qed.

End word_facts.

(** ** Whole-word substitution acts word by word *)

Section scan_facts.
Variables pat repl : text.
Hypothesis pat_wordy : wordy pat.

Lemma prefix_of_app p r : prefix_of p (p ++ r) = Some r.
Proof.
  induction p as [|a p IH]; cbn; [reflexivity|].
  now rewrite bool_decide_eq_true_2.
Qed.

Lemma prefix_of_Some p s r : prefix_of p s = Some r → s = p ++ r.
Proof.
  revert s. induction p as [|a p IH]; intros s; cbn.
  - congruence.
  - destruct s as [|c s]; [discriminate|].
    case_bool_decide as Hac; [|discriminate]. intros Hr. subst c. f_equal.
    now apply IH.
Qed.

Lemma last_or_cons (p q : option ascii) d u :
  from_option Some p (last (d :: u)) = from_option Some q (last (d :: u)).
Proof.
  revert d. induction u as [|e u IH]; intros d; [reflexivity|].
  change (last (d :: e :: u)) with (last (e :: u)). apply IH.
Qed.

Lemma sub_word_go_skip u prev s :
  sub_word_go pat repl prev (length u) (u ++ s)
  = sub_word_go pat repl (from_option Some prev (last u)) 0 s.
Proof.
  revert prev. induction u as [|a u IH]; intros prev; [reflexivity|].
  cbn [length app sub_word_go]. rewrite IH. destruct u as [|d u]; [reflexivity|].
  change (last (a :: d :: u)) with (last (d :: u)).
  now rewrite (last_or_cons (Some a) prev).
Qed.

Lemma no_match_sep prev c t :
  is_word c = false → match_word_at pat prev (c :: t) = false.
Proof.
  intros Hc. unfold match_word_at.
  destruct pat_wordy as [Hne Hall]. destruct Hall as [|a p Ha Hp]; [done|].
  cbn [prefix_of]. case_bool_decide; [congruence|]. apply andb_false_r.
Qed.

Lemma no_match_inside prev c t :
  word_side prev = true → is_word c = true →
  match_word_at pat prev (c :: t) = false.
Proof.
  intros Hp Hc. unfold match_word_at, boundary. cbn. now rewrite Hp, Hc.
Qed.

Lemma match_word_start prev w rest :
  word_side prev = false → wordy w → word_side (head rest) = false →
  match_word_at pat prev (w ++ rest) = bool_decide (w = pat).
Proof.
  intros Hp Hw Hr. unfold match_word_at, boundary.
  rewrite Hp, (wordy_head w rest Hw). cbn [xorb andb].
  case_bool_decide as Heq.
  - subst w. rewrite prefix_of_app, (wordy_last prev pat pat_wordy), Hr.
    reflexivity.
  - destruct (prefix_of pat (w ++ rest)) as [r|] eqn:E; [|reflexivity].
    apply prefix_of_Some in E.
    rewrite (wordy_last prev pat pat_wordy).
    destruct (word_side (head r)) eqn:Er; [reflexivity|].
    destruct (word_split_unique w pat rest r) as [? _];
      [apply Hw | apply pat_wordy | exact Hr | exact Er | exact E | done].
Qed.

(** Inside a word the scan only copies. *)
Lemma sub_word_go_copy u prev x :
  Forall (λ c, is_word c = true) u → word_side prev = true →
  ∃ prev', word_side prev' = true ∧
    sub_word_go pat repl prev 0 (u ++ x) = u ++ sub_word_go pat repl prev' 0 x.
Proof.
  intros Hu. revert prev. induction Hu as [|a u Ha Hu IH]; intros prev Hp.
  - exists prev. auto.
  - cbn [app sub_word_go]. rewrite (no_match_inside prev a _ Hp Ha).
    destruct (IH (Some a) Ha) as (prev' & Hp' & ->). eauto.
Qed.

(** The scan at the start of a word. *)
Lemma sub_word_go_word prev w rest :
  word_side prev = false → wordy w → word_side (head rest) = false →
  ∃ prev', word_side prev' = true ∧
    sub_word_go pat repl prev 0 (w ++ rest)
    = subst_word pat repl w ++ sub_word_go pat repl prev' 0 rest.
Proof.
  intros Hp Hw Hr.
  pose proof (match_word_start prev w rest Hp Hw Hr) as Hm.
  destruct Hw as [Hne Hall]. destruct w as [|a u]; [done|].
  cbn [app sub_word_go]. cbn [app] in Hm. rewrite Hm.
  unfold subst_word. case_bool_decide as Heq.
  - rewrite decide_True by exact Heq.
    exists (from_option Some (Some a) (last u)). split.
    + pose proof (wordy_last None (a :: u) (conj Hne Hall)) as Hl.
      destruct u as [|d u]; [inversion Hall; assumption|].
      change (last (a :: d :: u)) with (last (d :: u)) in Hl.
      now rewrite (last_or_cons (Some a) None).
    + f_equal.
      replace (length pat - 1) with (length u) by (rewrite <- Heq; cbn; lia).
      apply sub_word_go_skip.
  - rewrite decide_False by exact Heq.
    inversion Hall as [|? ? Ha Hu]; subst.
    destruct (sub_word_go_copy u (Some a) rest Hu Ha) as (prev' & Hp' & ->).
    exists prev'. auto.
Qed.

Lemma scan_sep prev c t :
  is_word c = false →
  sub_word_go pat repl prev 0 (c :: t) = c :: sub_word_go pat repl (Some c) 0 t.
Proof. intros Hc. cbn [sub_word_go]. now rewrite no_match_sep. Qed.

Lemma scan_word prev w :
  word_side prev = false → wordy w →
  sub_word_go pat repl prev 0 w = subst_word pat repl w.
Proof.
  intros Hp Hw.
  destruct (sub_word_go_word prev w [] Hp Hw eq_refl) as (prev' & _ & H).
  rewrite app_nil_r in H. rewrite H. cbn. apply app_nil_r.
Qed.

Lemma scan_word_sep prev w c t :
  word_side prev = false → wordy w → is_word c = false →
  sub_word_go pat repl prev 0 (w ++ c :: t)
  = subst_word pat repl w ++ c :: sub_word_go pat repl (Some c) 0 t.
Proof.
  intros Hp Hw Hc.
  destruct (sub_word_go_word prev w (c :: t) Hp Hw Hc) as (prev' & _ & ->).
  now rewrite scan_sep.
Qed.

(** A text none of whose words is [pat] is left as it is. *)
Lemma sub_word_go_fixed s prev :
  word_side prev = false → Forall (λ w, w ≠ pat) (words s) →
  sub_word_go pat repl prev 0 s = s.
Proof.
  revert prev. induction s as [|c t Hc IH|w Hw|w c t Hw Hc IH _] using word_sep_ind;
    intros prev Hp Hall.
  - reflexivity.
  - rewrite scan_sep by exact Hc. rewrite words_sep in Hall by exact Hc.
    f_equal. apply IH; [exact Hc | exact Hall].
  - rewrite scan_word by assumption. rewrite words_word in Hall by exact Hw.
    inversion Hall; subst. unfold subst_word. now rewrite decide_False.
  - rewrite scan_word_sep by assumption.
    rewrite words_word_sep in Hall by assumption.
    inversion Hall as [|? ? Hne Hrest]; subst.
    unfold subst_word. rewrite decide_False by exact Hne.
    do 2 f_equal. apply IH; [exact Hc | exact Hrest].
Qed.

(** The words of the result are the images of the words. *)
Lemma sub_word_go_words s prev :
  wordy repl → word_side prev = false →
  words (sub_word_go pat repl prev 0 s) = map (subst_word pat repl) (words s).
Proof.
  intros Hrepl.
  assert (Hsw : ∀ w, wordy w → wordy (subst_word pat repl w)).
  { intros w Hw. unfold subst_word. now case_decide. }
  revert prev. induction s as [|c t Hc IH|w Hw|w c t Hw Hc IH _] using word_sep_ind;
    intros prev Hp.
  - reflexivity.
  - rewrite scan_sep by exact Hc. rewrite !words_sep by exact Hc. now apply IH.
  - rewrite scan_word by assumption. rewrite !words_word by auto. reflexivity.
  - rewrite scan_word_sep by assumption. rewrite !words_word_sep by auto.
    cbn [map]. f_equal. now apply IH.
Qed.

Lemma Forall_sub_word_go (P : ascii → Prop) prev k s :
  Forall P repl → Forall P s → Forall P (sub_word_go pat repl prev k s).
Proof.
  intros Hrepl Hs. revert prev k.
  induction Hs as [|c t Hc Ht IH]; intros prev k; [constructor|].
  cbn [sub_word_go]. destruct k; [|apply IH].
  destruct (match_word_at pat prev (c :: t)).
  - apply Forall_app; split; [exact Hrepl | apply IH].
  - constructor; [exact Hc | apply IH].
Qed.

End scan_facts.

(** ** Stripping and whitespace collapsing keep the words *)

Section words_kept.

Lemma wordy_no_space w : wordy w → w ≠ [] ∧ Forall (λ c, is_space c = false) w.
Proof.
  intros [Hne Hall]. split; [exact Hne|].
  eapply Forall_impl; [exact Hall|]. cbn. intros c Hc.
  destruct (is_space c) eqn:E; [|reflexivity].
  apply space_not_word in E. congruence.
Qed.

Lemma rstrip_app u x :
  Forall (λ c, is_space c = false) u → rstrip (u ++ x) = u ++ rstrip x.
Proof.
  induction 1 as [|a u Ha Hu IH]; [reflexivity|].
  cbn [app rstrip]. rewrite IH.
  destruct (u ++ rstrip x) eqn:E; [now rewrite Ha | reflexivity].
Qed.

Lemma sub_spaces_go_app b u x :
  u ≠ [] → Forall (λ c, is_space c = false) u →
  sub_spaces_go b (u ++ x) = u ++ sub_spaces_go false x.
Proof.
  intros Hne Hu. revert b. induction Hu as [|a u Ha Hu IH]; intros b; [done|].
  cbn [app sub_spaces_go]. rewrite Ha. f_equal.
  destruct u as [|d u]; [reflexivity|]. now apply IH.
Qed.

Lemma words_lstrip s : words (lstrip s) = words s.
Proof.
  induction s as [|c t IH]; [reflexivity|]. cbn [lstrip].
  destruct (is_space c) eqn:E; [|reflexivity].
  now rewrite words_sep by (now apply space_not_word).
Qed.

Lemma words_rstrip s : words (rstrip s) = words s.
Proof.
  induction s as [|c t Hc IH|w Hw|w c t Hw Hc _ IH] using word_sep_ind.
  - reflexivity.
  - rewrite (words_sep c t) by exact Hc. cbn [rstrip].
    destruct (rstrip t) as [|d t'].
    + rewrite <- IH. destruct (is_space c); [reflexivity|].
      now rewrite words_sep.
    + now rewrite words_sep.
  - destruct (wordy_no_space w Hw) as [_ Hns].
    rewrite <- (app_nil_r w) at 1. rewrite rstrip_app by exact Hns.
    cbn. now rewrite app_nil_r.
  - destruct (wordy_no_space w Hw) as [_ Hns].
    rewrite rstrip_app by exact Hns.
    rewrite words_word_sep by assumption. rewrite words_sep in IH by exact Hc.
    cbn [rstrip] in *. destruct (rstrip t) as [|d t'].
    + destruct (is_space c).
      * rewrite app_nil_r, words_word by exact Hw. now rewrite <- IH.
      * rewrite words_word_sep by assumption.
        rewrite words_sep in IH by exact Hc. now rewrite IH.
    + rewrite words_word_sep by assumption.
      rewrite words_sep in IH by exact Hc. now rewrite IH.
Qed.

Lemma words_strip s : words (strip s) = words s.
Proof. unfold strip. now rewrite words_rstrip, words_lstrip. Qed.

Lemma words_sub_spaces_go s b : words (sub_spaces_go b s) = words s.
Proof.
  revert b.
  induction s as [|c t Hc IH|w Hw|w c t Hw Hc IH _] using word_sep_ind; intros b.
  - reflexivity.
  - rewrite (words_sep c t) by exact Hc. cbn [sub_spaces_go].
    destruct (is_space c); [destruct b|]; rewrite ?words_sep; auto.
  - destruct (wordy_no_space w Hw) as [Hne Hns].
    rewrite <- (app_nil_r w) at 1. rewrite sub_spaces_go_app by assumption.
    cbn. now rewrite app_nil_r.
  - destruct (wordy_no_space w Hw) as [Hne Hns].
    rewrite sub_spaces_go_app by assumption. cbn [sub_spaces_go].
    destruct (is_space c); rewrite !words_word_sep by auto; now rewrite IH.
Qed.

End words_kept.

(** ** The replacement table as a whole *)

Section table_facts.

Lemma replacements_wordy :
  Forall (λ pr, wordy pr.1 ∧ wordy pr.2) replacements.
Proof.
  unfold replacements, wordy.
  repeat (constructor; [cbn; split; (split; [discriminate|]);
                        repeat (constructor; [reflexivity|]); constructor|]).
  constructor.
Qed.

Lemma sub_all_words rs s :
  Forall (λ pr, wordy pr.1 ∧ wordy pr.2) rs →
  words (sub_all rs s) = map (subst_all rs) (words s).
Proof.
  intros Hrs. revert s. induction Hrs as [|[p r] rs [Hp Hr] Hrs IH]; intros s.
  - cbn. now rewrite map_id.
  - cbn [sub_all subst_all fold_left]. fold (sub_all rs) (subst_all rs).
    rewrite IH. unfold sub_word. cbn [fst snd].
    rewrite sub_word_go_words by auto. now rewrite map_map.
Qed.

Lemma sub_all_fixed rs s :
  Forall (λ pr, wordy pr.1 ∧ wordy pr.2) rs →
  Forall (λ w, Forall (λ pr, w ≠ pr.1) rs) (words s) →
  sub_all rs s = s.
Proof.
  intros Hrs. induction Hrs as [|[p r] rs [Hp Hr] Hrs IH]; intros Hw; [reflexivity|].
  cbn [sub_all fold_left]. fold (sub_all rs). unfold sub_word. cbn [fst snd].
  rewrite sub_word_go_fixed; [apply IH| exact Hp | reflexivity |].
  - eapply Forall_impl; [exact Hw|]. cbn. intros w H. now inversion H.
  - eapply Forall_impl; [exact Hw|]. cbn. intros w H. now inversion H.
Qed.

Lemma Forall_sub_all (P : ascii → Prop) rs s :
  Forall (λ pr, Forall P pr.2) rs → Forall P s → Forall P (sub_all rs s).
Proof.
  intros Hrs. revert s. induction Hrs as [|[p r] rs Hr Hrs IH]; intros s Hs;
    [exact Hs|].
  cbn [sub_all fold_left]. apply IH. now apply Forall_sub_word_go.
Qed.

(** A word leaves a table unchanged, being none of its patterns, or as
    one of its replacements. *)
Lemma subst_all_cases (full rs : list (text * text)) w :
  Forall (λ pr, inert full pr.2) rs →
  (subst_all rs w = w ∧ inert rs w) ∨ Exists (λ pr, subst_all rs w = pr.2) rs.
Proof.
  intros Hrs. revert w. induction Hrs as [|[p r] rs Hr Hrs IH]; intros w.
  - left. split; [reflexivity | constructor].
  - change (subst_all ((p, r) :: rs) w) with (subst_all rs (subst_word p r w)).
    unfold subst_word. destruct (decide (w = p)) as [Hw|Hw].
    + right. destruct (IH r) as [[-> _]|Hex].
      * now apply Exists_cons_hd.
      * now apply Exists_cons_tl.
    + destruct (IH w) as [[-> Hin]|Hex].
      * left. split; [reflexivity | now constructor].
      * right. now apply Exists_cons_tl.
Qed.

Lemma replacements_inert : Forall (λ pr, inert replacements pr.2) replacements.
Proof. unfold inert. apply (bool_decide_unpack _). vm_compute. exact I. Qed.

(** No word that leaves the table is one of its patterns. *)
Lemma subst_all_avoids w : inert replacements (subst_all replacements w).
Proof.
  destruct (subst_all_cases replacements replacements w replacements_inert)
    as [[-> H]|Hex]; [exact H|].
  rewrite Exists_exists in Hex. destruct Hex as (pr & Hin & Heq).
  rewrite Heq. pose proof replacements_inert as Hall.
  rewrite Forall_forall in Hall. now apply Hall.
Qed.

End table_facts.

(** ** Canonical address keys *)

Section canonical_keys.

Lemma apply_replacements_sub_all s : apply_replacements s = sub_all replacements s.
Proof. reflexivity. Qed.

Lemma canonical_fixed s : canonical s → enhanced_clean (Some s) = s.
Proof.
  intros (Hc & Hs & Hsp & Hw). unfold enhanced_clean.
  assert (Hup : upper s = s).
  { apply map_fixed. eapply Forall_impl; [exact Hc|]. now intros c [? _]. }
  assert (Hpu : sub_punct s = s).
  { apply sub_punct_fixed. eapply Forall_impl; [exact Hc|]. now intros c [_ ?]. }
  assert (Hre : apply_replacements s = s).
  { rewrite apply_replacements_sub_all.
    apply sub_all_fixed; [apply replacements_wordy | exact Hw]. }
  assert (Hss : sub_spaces s = s) by (now apply spaced_fixed).
  rewrite Hup, (strip_fixed s Hs), Hpu, Hre, Hss. now apply strip_fixed.
Qed.

Lemma enhanced_clean_canonical addr : canonical (enhanced_clean addr).
Proof.
  destruct addr as [a|]; cbn [enhanced_clean].
  2:{ repeat split; constructor. }
  set (s1 := strip (upper a)). set (s2 := sub_punct s1).
  split_and!.
  - apply Forall_strip, Forall_sub_spaces_go; [split; reflexivity|].
    rewrite apply_replacements_sub_all. apply Forall_sub_all.
    + apply (bool_decide_unpack _). vm_compute. exact I.
    + apply Forall_and. split.
      * unfold s2, sub_punct. apply Forall_map.
        assert (H1 : Forall (λ c, upper_char c = c) s1)
          by apply Forall_strip, upper_fixed.
        eapply Forall_impl; [exact H1|]. cbn. intros c Hc.
        destruct (is_punct c); [reflexivity | exact Hc].
      * apply sub_punct_clear.
  - apply strip_stripped.
  - unfold strip. eapply spaced_rstrip, spaced_lstrip, sub_spaces_go_spaced.
  - rewrite words_strip. unfold sub_spaces. rewrite words_sub_spaces_go.
    rewrite apply_replacements_sub_all, sub_all_words by apply replacements_wordy.
    apply Forall_map, Forall_forall. intros w _. apply subst_all_avoids.
Qed.

End canonical_keys.


(** ** The lookup builder *)

Section lookup_facts.

(** The loop over the reference rows, started from any dictionary: a key
    already present keeps its point; a fresh non-empty key gets the point
    of the first row that carries it. *)
Lemma fold_add_address (ref : list (text * Point)) (m : gmap text Point) (k : text) :
  fold_left add_address ref m !! k =
  match m !! k with
  | Some p => Some p
  | None =>
      if decide (k = []) then None
      else (λ ir : nat * (text * Point), ir.2.2) <$> list_find (λ r, r.1 = k) ref
  end.
Proof.
  revert m. induction ref as [|[a p] ref IH]; intros m.
  - cbn. destruct (m !! k); [reflexivity|]. now case_decide.
  - cbn [fold_left]. rewrite IH. unfold add_address. cbn [fst snd list_find].
    destruct (decide (a = k)) as [->|Hak].
    + case_bool_decide as Hne; cbn [andb].
      * case_bool_decide as Hfree; cbn [andb].
        -- rewrite lookup_insert_eq, Hfree. now rewrite decide_False.
        -- destruct (m !! k); [reflexivity | done].
      * subst k.
        destruct (m !! []); [reflexivity|]. now rewrite decide_True.
    + assert (Hk : (if bool_decide (a ≠ []) && bool_decide (m !! a = None)
                    then <[a:=p]> m else m) !! k = m !! k).
      { destruct (bool_decide (a ≠ []) && bool_decide (m !! a = None));
          [now rewrite lookup_insert_ne | reflexivity]. }
      rewrite Hk. destruct (m !! k); [reflexivity|].
      case_decide; [reflexivity|].
      destruct (list_find (λ r, r.1 = k) ref) as [[i r]|]; reflexivity.
Qed.

Lemma build_lookup_find (ref : list (text * Point)) (k : text) :
  build_lookup ref !! k =
  if decide (k = []) then None
  else (λ ir : nat * (text * Point), ir.2.2) <$> list_find (λ r, r.1 = k) ref.
Proof. unfold build_lookup. now rewrite fold_add_address, lookup_empty. Qed.

End lookup_facts.

(** C6. The lookup maps a key to a point exactly when the key is not
    empty and the point is the geometry of the first reference row, in
    row order, whose cleaned address is that key; so every non-empty
    cleaned address of the layer is a key, later rows with the same key
    change nothing, and the empty key is never present. *)
Theorem build_lookup_first_wins (addresses : Addresses) (addr_col : text) :
  let lk := build_lookup (reference_rows addresses addr_col) in
  let key (r : AddressRow) := enhanced_clean (cell r addr_col) in
  lk !! [] = None
  ∧ (∀ k p, lk !! k = Some p ↔
       k ≠ [] ∧ ∃ i r, rows addresses !! i = Some r ∧ key r = k ∧ geometry r = p
                       ∧ ∀ j r', rows addresses !! j = Some r' → j < i → key r' ≠ k)
  ∧ (∀ i r, rows addresses !! i = Some r → key r ≠ [] → is_Some (lk !! key r)).
Proof.
  cbn zeta. split_and!.
  - now rewrite build_lookup_find, decide_True.
  - intros k p. rewrite build_lookup_find. unfold reference_rows.
    case_decide as Hk; [split; [discriminate | now intros [? _]]|].
    split.
    + intros H. split; [exact Hk|].
      destruct (list_find _ _) as [[i [a q]]|] eqn:E; [|discriminate].
      cbn in H. injection H as ->.
      apply list_find_Some in E as (Hi & Ha & Hfirst). cbn in Ha. subst a.
      rewrite list_lookup_fmap in Hi.
      destruct (rows addresses !! i) as [r|] eqn:Er; [|discriminate].
      cbn in Hi. injection Hi as Hkey Hgeo.
      exists i, r. split_and!; [exact Er | exact Hkey | exact Hgeo |].
      intros j r' Hj Hlt Heq.
      apply (Hfirst j (enhanced_clean (cell r' addr_col), geometry r')); [|exact Hlt|].
      * now rewrite list_lookup_fmap, Hj.
      * cbn. congruence.
    + intros (_ & i & r & Hi & Hkey & Hgeo & Hfirst).
      assert (E : list_find (λ r0 : text * Point, r0.1 = k)
                    (map (λ r0, (enhanced_clean (cell r0 addr_col), geometry r0))
                       (rows addresses))
                  = Some (i, (k, p))).
      { apply list_find_Some. split_and!.
        - rewrite list_lookup_fmap, Hi. cbn. congruence.
        - reflexivity.
        - intros j [a q] Hj Hlt. rewrite list_lookup_fmap in Hj.
          destruct (rows addresses !! j) as [r'|] eqn:Er; [|discriminate].
          cbn in Hj. injection Hj as <- <-. cbn. eapply Hfirst; eauto. }
      now rewrite E.
  - intros i r Hi Hne. rewrite build_lookup_find, decide_False by exact Hne.
    unfold reference_rows.
    destruct (list_find _ _) as [[j q]|] eqn:E; [now eexists|].
    apply list_find_None in E. rewrite Forall_forall in E.
    exfalso. apply (E (enhanced_clean (cell r addr_col), geometry r)); [|reflexivity].
    apply list_elem_of_fmap. exists r. split; [reflexivity|].
    eapply list_elem_of_lookup_2, Hi.
Qed.

(** ** The matching loop *)

Section match_facts.
Variable addr_lookup : gmap text Point.

Lemma fold_match_step active st :
  fold_left (match_step addr_lookup) active st
  = (st.1 ++ omap (geocode_row addr_lookup) active,
     (st.2 + length (omap (geocode_row addr_lookup) active))%nat).
Proof.
  revert st. induction active as [|row active IH]; intros [ms n].
  - cbn. now rewrite app_nil_r, Nat.add_0_r.
  - cbn [fold_left]. rewrite IH.
    change (omap (geocode_row addr_lookup) (row :: active))
      with (match geocode_row addr_lookup row with
            | Some g => g :: omap (geocode_row addr_lookup) active
            | None => omap (geocode_row addr_lookup) active
            end).
    unfold match_step, geocode_row.
    destruct (addr_lookup !! row.2) as [m|]; cbn [fst snd].
    + rewrite <- app_assoc. cbn [app length]. f_equal. lia.
    + reflexivity.
Qed.

Lemma geocode_unfold voters :
  geocode voters addr_lookup
  = (omap (geocode_row addr_lookup) (with_clean_address (active_voters voters)),
     length (omap (geocode_row addr_lookup) (with_clean_address (active_voters voters)))).
Proof. unfold geocode, match_voters. now rewrite fold_match_step. Qed.

Lemma geocode_count voters :
  (geocode voters addr_lookup).2 = length (geocode voters addr_lookup).1.
Proof. now rewrite geocode_unfold. Qed.

Lemma omap_geocode_row_cons row active :
  omap (geocode_row addr_lookup) (row :: active)
  = match geocode_row addr_lookup row with
    | Some g => g :: omap (geocode_row addr_lookup) active
    | None => omap (geocode_row addr_lookup) active
    end.
Proof. reflexivity. Qed.

Lemma geocode_row_Some row g :
  geocode_row addr_lookup row = Some g →
  ∃ m, addr_lookup !! row.2 = Some m
       ∧ g = {| voter := row.1; clean_address := row.2;
                x := px m; y := py m; matched := true |}.
Proof.
  unfold geocode_row. destruct (addr_lookup !! row.2) as [m|]; [|discriminate].
  cbn. intros [= <-]. eauto.
Qed.

Lemma geocode_row_None row :
  geocode_row addr_lookup row = None → addr_lookup !! row.2 = None.
Proof.
  unfold geocode_row. destruct (addr_lookup !! row.2) as [m|]; [discriminate|].
  reflexivity.
Qed.

Lemma geocode_voters voters :
  map voter (geocode voters addr_lookup).1 = filter (hit addr_lookup) voters.
Proof.
  rewrite geocode_unfold. cbn [fst]. unfold active_voters, with_clean_address.
  induction voters as [|v voters IH]; [reflexivity|].
  rewrite !filter_cons.
  destruct (decide (voter_status_desc v = Some ACTIVE)) as [Ha|Ha].
  - cbn [map]. rewrite omap_geocode_row_cons.
    destruct (geocode_row addr_lookup (v, enhanced_clean (res_street_address v))) as [g|] eqn:E.
    + apply geocode_row_Some in E as (m & Hm & ->). cbn [fst snd] in Hm.
      rewrite decide_True by (split; [exact Ha | exists m; exact Hm]).
      cbn [map voter fst]. f_equal. exact IH.
    + apply geocode_row_None in E. cbn [snd] in E.
      rewrite decide_False; [exact IH|].
      intros [_ [? ?]]. congruence.
  - rewrite decide_False by (now intros [? _]). exact IH.
Qed.

Lemma geocode_rows_sound voters :
  Forall (λ r, clean_address r = enhanced_clean (res_street_address (voter r))
               ∧ addr_lookup !! clean_address r = Some {| px := x r; py := y r |}
               ∧ matched r = true)
         (geocode voters addr_lookup).1.
Proof.
  rewrite geocode_unfold. cbn [fst]. unfold with_clean_address.
  induction (active_voters voters) as [|v active IH]; [constructor|].
  cbn [map]. rewrite omap_geocode_row_cons.
  destruct (geocode_row addr_lookup (v, enhanced_clean (res_street_address v))) as [g|] eqn:E;
    [|exact IH].
  apply geocode_row_Some in E as ([mx my] & Hm & ->). cbn [fst snd] in Hm.
  constructor; [|exact IH]. cbn. auto.
Qed.

Lemma geocode_count_le voters :
  (geocode voters addr_lookup).2 ≤ length (active_voters voters).
Proof.
  rewrite geocode_unfold. cbn [snd]. unfold with_clean_address.
  induction (active_voters voters) as [|v active IH]; [reflexivity|].
  cbn [map]. rewrite omap_geocode_row_cons.
  destruct (geocode_row addr_lookup _); cbn [length]; lia.
Qed.

End match_facts.

Lemma rate_bounds (m t : nat) :
  m ≤ t → (0 <= success_rate m t)%Q ∧ (success_rate m t <= 100)%Q.
Proof.
  intros Hmt. unfold success_rate. destruct (0 <? t)%nat eqn:Ht.
  - apply Nat.ltb_lt in Ht.
    assert (Htq : (0 < inject_Z (Z.of_nat t))%Q).
    { change 0%Q with (inject_Z 0). rewrite <- Zlt_Qlt. lia. }
    assert (Hm0 : (0 <= inject_Z (Z.of_nat m))%Q).
    { change 0%Q with (inject_Z 0). rewrite <- Zle_Qle. lia. }
    assert (Hmq : (inject_Z (Z.of_nat m) <= inject_Z (Z.of_nat t))%Q).
    { rewrite <- Zle_Qle. lia. }
    set (a := inject_Z (Z.of_nat m)) in *. set (b := inject_Z (Z.of_nat t)) in *.
    assert (H0 : (0 <= a / b)%Q) by (apply Qle_shift_div_l; lra).
    assert (H1 : (a / b <= 1)%Q) by (apply Qle_shift_div_r; lra).
    split; lra.
  - split; lra.
Qed.


(** C5. For every voter table and lookup, the matched count is at most
    the number of ACTIVE voters, and the match rate computed from the two
    counts (0 when there is no ACTIVE voter) lies between 0 and 100; the
    figures that a run reports are these. *)
Theorem geocode_rate_bounds (voters : list Voter) (addr_lookup : gmap text Point) :
  let matched_count := (geocode voters addr_lookup).2 in
  let total := length (active_voters voters) in
  matched_count ≤ total
  ∧ (0 <= success_rate matched_count total)%Q
  ∧ (success_rate matched_count total <= 100)%Q
  ∧ ∀ county_name addresses output_dir,
      match report (ultra_fast_geocode_county county_name voters addresses output_dir) with
      | Some r =>
          printed_total_voters r = total
          ∧ printed_geocoded r ≤ printed_total_voters r
          ∧ (0 <= printed_success_rate r)%Q ∧ (printed_success_rate r <= 100)%Q
      | None => True
      end.
Proof.
  cbn zeta. pose proof (geocode_count_le addr_lookup voters) as Hle.
  split_and!; [exact Hle | apply rate_bounds, Hle | apply rate_bounds, Hle |].
  intros county_name addresses output_dir. unfold ultra_fast_geocode_county.
  destruct (addr_cols addresses) as [|addr_col cols]; [exact I|].
  set (lk := build_lookup (reference_rows addresses addr_col)).
  pose proof (geocode_count_le lk voters) as Hlk. unfold geocode in Hlk.
  destruct (match_voters lk (with_clean_address (active_voters voters)))
    as [[|g matches] n]; [exact I|].
  cbn in *. unfold with_clean_address. rewrite length_map.
  split_and!; [reflexivity | exact Hlk | apply rate_bounds, Hlk..].
Qed.

(** C9. When no ACTIVE voter's cleaned address is a key of the lookup, the
    geocoder returns [None], writes no file and reports no rate; a
    dataset is returned only when at least one voter matched, and it is
    then the dataset written. *)
Theorem geocode_none_without_match (county_name : text) (voters : list Voter)
    (addresses : Addresses) (output_dir : text) :
  let out := ultra_fast_geocode_county county_name voters addresses output_dir in
  let hits := matched_voters voters addresses in
  (hits = [] → out = nothing)
  ∧ (∀ gdf, returned out = Some gdf →
       hits ≠ [] ∧ map voter gdf = hits
       ∧ written out
         = [(output_dir, lower county_name ++ txt "_voters_geocoded.gpkg", gdf)]).
Proof.
  cbn zeta. unfold ultra_fast_geocode_county, matched_voters.
  destruct (addr_cols addresses) as [|addr_col cols]; [split; [reflexivity | discriminate]|].
  set (lk := build_lookup (reference_rows addresses addr_col)).
  pose proof (geocode_voters lk voters) as Hv. unfold geocode in Hv.
  destruct (match_voters lk (with_clean_address (active_voters voters)))
    as [[|g matches] n]; cbn [fst] in Hv; rewrite <- Hv.
  - split; [reflexivity | discriminate].
  - split; [discriminate|]. cbn. intros gdf [= <-]. split_and!; [discriminate | reflexivity..].
Qed.

(** ** Lists built per index *)

Section per_index.
Context {A B : Type} (idx : B → nat).

Lemma filter_all (P : B → Prop) `{∀ b, Decision (P b)} (l : list B) :
  Forall P l → filter P l = l.
Proof.
  induction 1 as [|b l Hb Hl IH]; [reflexivity|].
  rewrite filter_cons, decide_True by exact Hb. now rewrite IH.
Qed.

Lemma filter_none (P : B → Prop) `{∀ b, Decision (P b)} (l : list B) :
  Forall (λ b, ¬ P b) l → filter P l = [].
Proof.
  induction 1 as [|b l Hb Hl IH]; [reflexivity|].
  rewrite filter_cons, decide_False by exact Hb. exact IH.
Qed.

(** Chunks whose members carry the position of the chunk, counted from
    [n]: all members sit at [n] or later. *)
Lemma concat_imap_idx_ge (l : list A) :
  ∀ (f : nat → A → list B) n,
    (∀ i a, Forall (λ b, idx b = n + i) (f i a)) →
    Forall (λ b, n ≤ idx b) (concat (imap f l)).
Proof.
  induction l as [|a l IH]; intros f n Hf; [constructor|].
  rewrite imap_cons. cbn [concat]. apply Forall_app. split.
  - eapply Forall_impl; [apply Hf|]. cbn. intros b ->. lia.
  - eapply Forall_impl; [apply (IH (f ∘ S) (S n))|].
    + intros i x. eapply Forall_impl; [apply (Hf (S i) x)|]. cbn. intros b ->. lia.
    + cbn. intros b Hb. lia.
Qed.

(** Selecting by position gives back the chunk built at that position. *)
Lemma filter_concat_imap (l : list A) :
  ∀ (f : nat → A → list B) n,
    (∀ i a, Forall (λ b, idx b = n + i) (f i a)) →
    ∀ i a, l !! i = Some a →
      filter (λ b, idx b = n + i) (concat (imap f l)) = f i a.
Proof.
  induction l as [|x l IH]; intros f n Hf i a Hi; [discriminate|].
  rewrite imap_cons. cbn [concat]. rewrite filter_app. destruct i as [|i].
  - injection Hi as ->. rewrite filter_all by apply Hf.
    rewrite filter_none; [apply app_nil_r|].
    eapply Forall_impl; [apply (concat_imap_idx_ge l (f ∘ S) (S n))|].
    + intros i x. eapply Forall_impl; [apply (Hf (S i) x)|]. cbn. intros b ->. lia.
    + cbn. intros b Hb. lia.
  - rewrite filter_none.
    + cbn [app]. replace (n + S i) with (S n + i) by lia.
      apply (IH (f ∘ S) (S n)); [|exact Hi].
      intros k y. eapply Forall_impl; [apply (Hf (S k) y)|]. cbn. intros b ->. lia.
    + eapply Forall_impl; [apply (Hf 0 x)|]. cbn. intros b ->. lia.
Qed.

(** A filtered, indexed list as a list of chunks of at most one member. *)
Lemma filter_imap_chunks (P : B → Prop) `{∀ b, Decision (P b)} (l : list A) :
  ∀ f : nat → A → B,
    filter P (imap f l)
    = concat (imap (λ i a, if decide (P (f i a)) then [f i a] else []) l).
Proof.
  induction l as [|a l IH]; intros f; [reflexivity|].
  rewrite !imap_cons, filter_cons. cbn [concat]. rewrite IH.
  destruct (decide (P (f 0 a))); reflexivity.
Qed.

End per_index.

(** ** The left spatial join *)

Section sjoin_facts.
Variable within : Point → list Point → bool.
Variable parcels : list Parcel.

Lemma sjoin_one_index i v :
  Forall (λ r, index_left r = 0 + i) (sjoin_one within parcels i v).
Proof.
  unfold sjoin_one. destruct (containing within parcels (location v)) as [|h hs].
  - repeat constructor.
  - apply Forall_map, Forall_forall. intros ip _. reflexivity.
Qed.

Lemma sjoin_one_left i v :
  Forall (λ r, left_row r = v) (sjoin_one within parcels i v).
Proof.
  unfold sjoin_one. destruct (containing within parcels (location v)) as [|h hs].
  - repeat constructor.
  - apply Forall_map, Forall_forall. intros ip _. reflexivity.
Qed.

(** The rows of the voter at position [i]. *)
Lemma sjoin_left_rows_of voters i v :
  voters !! i = Some v →
  filter (λ r, index_left r = i) (sjoin_left within voters parcels)
  = sjoin_one within parcels i v.
Proof.
  intros Hi. unfold sjoin_left.
  apply (filter_concat_imap index_left voters (sjoin_one within parcels) 0
           sjoin_one_index i v Hi).
Qed.

Lemma sjoin_one_length i v :
  length (sjoin_one within parcels i v)
  = Nat.max 1 (length (containing within parcels (location v))).
Proof.
  unfold sjoin_one. destruct (containing within parcels (location v)) as [|h hs];
    [reflexivity|].
  rewrite length_map. cbn [length]. lia.
Qed.

(** A parcel occurs among the hits once if it contains the point, and
    not at all otherwise. *)
Lemma containing_count p j pc :
  parcels !! j = Some pc →
  length (filter (λ ip : nat * Parcel, ip.1 = j) (containing within parcels p))
  = if within p (polygon pc) then 1 else 0.
Proof.
  intros Hj. unfold containing. rewrite filter_imap_chunks.
  assert (Hf : ∀ i a,
             Forall (λ b : nat * Parcel, b.1 = 0 + i)
               (if decide (within p (polygon (i, a).2) = true)
                then [(i, a)] else [])).
  { intros i a. destruct (decide _); repeat constructor. }
  pose proof (filter_concat_imap fst parcels _ 0 Hf j pc Hj) as Hrw.
  cbn [Nat.add] in Hrw. cbn [snd] in *. rewrite Hrw.
  destruct (decide (within p (polygon pc) = true)) as [->|Hn];
    [reflexivity|].
  destruct (within p (polygon pc)); [done | reflexivity].
Qed.

Lemma hits_rows_count i v (hits : list (nat * Parcel)) j :
  length (filter (λ r, index_right r = Some j)
            (map (λ ip : nat * Parcel,
                    {| index_left := i; left_row := v;
                       index_right := Some ip.1; right_row := Some ip.2 |}) hits))
  = length (filter (λ ip : nat * Parcel, ip.1 = j) hits).
Proof.
  induction hits as [|[k pc] hits IH]; [reflexivity|].
  cbn [map]. rewrite !filter_cons. cbn [index_right fst].
  destruct (decide (k = j)) as [->|Hk].
  - rewrite decide_True by reflexivity. cbn [length]. now rewrite IH.
  - rewrite decide_False by congruence. exact IH.
Qed.

Lemma sjoin_one_pair_count i v j pc :
  parcels !! j = Some pc →
  length (filter (λ r, index_right r = Some j) (sjoin_one within parcels i v))
  = if within (location v) (polygon pc) then 1 else 0.
Proof.
  intros Hj. rewrite <- (containing_count (location v) j pc Hj).
  unfold sjoin_one. destruct (containing within parcels (location v)) as [|h hs] eqn:E.
  - reflexivity.
  - apply hits_rows_count.
Qed.

Lemma sjoin_one_null_count i v :
  length (filter (λ r, index_right r = None) (sjoin_one within parcels i v))
  = match containing within parcels (location v) with [] => 1 | _ => 0 end.
Proof.
  unfold sjoin_one. destruct (containing within parcels (location v)) as [|h hs].
  - reflexivity.
  - rewrite filter_none; [reflexivity|].
    apply Forall_map, Forall_forall. intros ip _. discriminate.
Qed.

Lemma sjoin_one_matched i v :
  count_matched (sjoin_one within parcels i v)
  = length (containing within parcels (location v)).
Proof.
  unfold count_matched, sjoin_one.
  destruct (containing within parcels (location v)) as [|h hs].
  - reflexivity.
  - rewrite filter_all; [now rewrite length_map|].
    apply Forall_map, Forall_forall. intros ip _. discriminate.
Qed.

Lemma count_matched_app r1 r2 :
  count_matched (r1 ++ r2) = count_matched r1 + count_matched r2.
Proof. unfold count_matched. now rewrite filter_app, length_app. Qed.

Lemma sjoin_left_matched voters :
  count_matched (sjoin_left within voters parcels)
  = sum_list (map (λ v, length (containing within parcels (location v))) voters).
Proof.
  unfold sjoin_left. generalize (sjoin_one within parcels) (sjoin_one_matched).
  induction voters as [|v voters IH]; intros f Hf; [reflexivity|].
  rewrite imap_cons. cbn [concat map sum_list sum_list_with].
  rewrite count_matched_app, Hf. f_equal. apply IH. intros i w. apply Hf.
Qed.

End sjoin_facts.

(** C7. Whatever the county name, the voters and the parcels, every row
    of the join that [spatial_join_county] returns has that county name
    in its [county] field; the only run without rows is the one that stops
    on an empty voter layer. *)
Theorem spatial_join_county_stamp (within : Point → list Point → bool)
    (county_name : text) (voters : list Geocoded) (parcels : list Parcel)
    (output_dir : text) :
  match spatial_join_county within county_name voters parcels output_dir with
  | Some out => Forall (λ r, county r = county_name) (joined out)
  | None => voters = []
  end.
Proof.
  unfold spatial_join_county. destruct voters as [|v voters]; [reflexivity|].
  cbn [joined]. apply Forall_map, Forall_forall. intros r _. reflexivity.
Qed.

(** C10. The join has, for the voter at each position, one row per parcel
    that contains the voter's point and, when no parcel does, a single row
    with no parcel; so every voter has at least one row.  The count of
    successful joins is the number of (voter, containing parcel) pairs.  A
    voter inside two overlapping parcels therefore appears twice, and the
    join rate of that run is 200, above 100. *)
Theorem sjoin_row_per_containing_parcel :
  (∀ (within : Point → list Point → bool) (voters : list Geocoded)
     (parcels : list Parcel),
     let rows := sjoin_left within voters parcels in
     (∀ i v, voters !! i = Some v →
        let hits := containing within parcels (location v) in
        let mine := filter (λ r, index_left r = i) rows in
        length mine = Nat.max 1 (length hits)
        ∧ Forall (λ r, left_row r = v) mine
        ∧ (∀ j pc, parcels !! j = Some pc →
             length (filter (λ r, index_right r = Some j) mine)
             = if within (location v) (polygon pc) then 1 else 0)
        ∧ length (filter (λ r, index_right r = None) mine)
          = match hits with [] => 1 | _ => 0 end)
     ∧ count_matched rows
       = sum_list (map (λ v, length (containing within parcels (location v))) voters))
  ∧ (∃ out,
       spatial_join_county within_box (txt "Wake") overlap_voters overlap_parcels
         (txt "out") = Some out
       ∧ length overlap_voters = 1
       ∧ Forall (λ pc, within_box {| px := 5; py := 5 |} (polygon pc) = true)
           overlap_parcels
       ∧ length (joined out) = 2
       ∧ successful_joins out = 2
       ∧ (join_rate out == 200)%Q ∧ (100 < join_rate out)%Q).
Proof.
  split.
  - intros within voters parcels. cbn zeta. split.
    + intros i v Hi. rewrite (sjoin_left_rows_of within parcels voters i v Hi).
      split_and!.
      * apply sjoin_one_length.
      * apply sjoin_one_left.
      * intros j pc Hj. now apply sjoin_one_pair_count.
      * apply sjoin_one_null_count.
    + apply sjoin_left_matched.
  - eexists. split_and!; [vm_compute; reflexivity | reflexivity | | reflexivity
                          | reflexivity | reflexivity | reflexivity].
    repeat constructor.
Qed.

(** A sum of counts that are all at least 1, one of them at least 2,
    exceeds the number of counts. *)
Lemma sum_list_ge_length {A} (f : A → nat) (l : list A) :
  Forall (λ a, 1 ≤ f a) l → length l ≤ sum_list (map f l).
Proof.
  induction 1 as [|a l Ha Hl IH]; [reflexivity|].
  change (sum_list (map f (a :: l))) with (f a + sum_list (map f l)).
  cbn [length]. lia.
Qed.

Lemma sum_list_gt_length {A} (f : A → nat) (l : list A) :
  Forall (λ a, 1 ≤ f a) l → Exists (λ a, 2 ≤ f a) l →
  length l < sum_list (map f l).
Proof.
  intros Hall Hex. induction Hex as [a l Ha|a l Hex IH].
  - inversion Hall as [|? ? _ Hl]; subst.
    pose proof (sum_list_ge_length f l Hl) as Hle.
    change (sum_list (map f (a :: l))) with (f a + sum_list (map f l)).
    cbn [length]. lia.
  - inversion Hall as [|? ? Ha Hl]; subst. specialize (IH Hl).
    change (sum_list (map f (a :: l))) with (f a + sum_list (map f l)).
    cbn [length]. lia.
Qed.

(** X2. When every voter lies in some parcel and one voter lies in two or
    more, the join rate that [spatial_join_county] computes is above 100. *)
Lemma join_rate_above_100 (within : Point → list Point → bool) (county_name : text)
    (voters : list Geocoded) (parcels : list Parcel) (output_dir : text)
    (out : JoinOutcome) :
  spatial_join_county within county_name voters parcels output_dir = Some out →
  Forall (λ v, 1 ≤ length (containing within parcels (location v))) voters →
  Exists (λ v, 2 ≤ length (containing within parcels (location v))) voters →
  (100 < join_rate out)%Q.
Proof.
  intros Hout Hall Hex.
  pose proof (sum_list_gt_length _ voters Hall Hex) as Hgt.
  rewrite <- (sjoin_left_matched within parcels voters) in Hgt.
  unfold spatial_join_county in Hout. destruct voters as [|v voters]; [discriminate|].
  injection Hout as <-. cbn [join_rate].
  set (n := length (v :: voters)) in *.
  set (k := count_matched (sjoin_left within (v :: voters) parcels)) in *.
  assert (Hn : (0 < inject_Z (Z.of_nat n))%Q).
  { change 0%Q with (inject_Z 0). rewrite <- Zlt_Qlt. subst n. cbn [length]. lia. }
  assert (Hk : (inject_Z (Z.of_nat n) < inject_Z (Z.of_nat k))%Q).
  { rewrite <- Zlt_Qlt. lia. }
  assert (H1 : (1 < inject_Z (Z.of_nat k) / inject_Z (Z.of_nat n))%Q).
  { apply Qlt_shift_div_l; [exact Hn | lra]. }
  change (S (length voters)) with n. lra.
Qed.

(** The run on [overlap_voters] and [overlap_parcels] is such a run. *)
Lemma join_rate_above_100_overlap :
  ∃ out,
    spatial_join_county within_box (txt "Wake") overlap_voters overlap_parcels
      (txt "out") = Some out
    ∧ (100 < join_rate out)%Q.
Proof.
  eexists. split; [reflexivity|].
  eapply (join_rate_above_100 within_box (txt "Wake") overlap_voters overlap_parcels
            (txt "out")).
  - reflexivity.
  - repeat constructor.
  - apply Exists_cons_hd. vm_compute. lia.
Defined.

(** ** Column assignment under a mask *)

Section loc_facts.
Context {A B : Type}.

(** A mask and a column computed row by row from the same table: the
    assignment is a choice row by row. *)
Lemma loc_assign_map (test : A → bool) (value : B) (old : A → B) (data : list A) :
  loc_assign (map test data) value (map old data)
  = map (λ a, if test a then value else old a) data.
Proof.
  unfold loc_assign. induction data as [|a data IH]; [reflexivity|].
  cbn. now rewrite IH.
Qed.

Lemma zip_map_map {C} (f : A → B) (g : A → C) (l : list A) :
  zip (map f l) (map g l) = map (λ a, (f a, g a)) l.
Proof. induction l as [|a l IH]; [reflexivity|]. cbn. now rewrite IH. Qed.

End loc_facts.

(** ** Registration periods *)

Section period_facts.
Variable to_datetime_year : text → option Z.

Lemma registration_period_rows data :
  registration_period to_datetime_year data
  = map (λ v, period_of (registration_year to_datetime_year v)) data.
Proof.
  unfold registration_period. rewrite !map_map, !loc_assign_map.
  apply map_ext. intros v. unfold period_of, year_is.
  destruct (registration_year to_datetime_year v) as [yr|]; [|reflexivity].
  destruct (yr <? 2000)%Z eqn:E1, (yr <? 2010)%Z eqn:E2, (yr <? 2020)%Z eqn:E3,
    (2000 <=? yr)%Z eqn:E4, (2010 <=? yr)%Z eqn:E5, (2020 <=? yr)%Z eqn:E6;
    try reflexivity; exfalso; lia.
Qed.

End period_facts.


(** ** Density tiers *)

Section tier_facts.

Lemma zip_map_diag {A B} (f : A → B) (l : list A) :
  zip l (map f l) = map (λ a, (a, f a)) l.
Proof. induction l as [|a l IH]; [reflexivity|]. cbn. now rewrite IH. Qed.

Lemma urban_rural_rows density :
  urban_rural density
  = map (tier_of (percentile (map Z.of_nat density) 25)
                 (percentile (map Z.of_nat density) 75))
        (map Z.of_nat density).
Proof. unfold urban_rural. cbn zeta. now rewrite !loc_assign_map. Qed.

Lemma le_threshold_iff lower score :
  le_threshold lower score = true ↔ ∃ lo, lower = Some lo ∧ (inject_Z score <= lo)%Q.
Proof.
  destruct lower as [lo|]; cbn.
  - rewrite Qle_bool_iff. split; [eauto|]. now intros (? & [= <-] & ?).
  - split; [discriminate|]. now intros (? & ? & _).
Qed.

Lemma ge_threshold_iff upper score :
  ge_threshold upper score = true ↔ ∃ up, upper = Some up ∧ (up <= inject_Z score)%Q.
Proof.
  destruct upper as [up|]; cbn.
  - rewrite Qle_bool_iff. split; [eauto|]. now intros (? & [= <-] & ?).
  - split; [discriminate|]. now intros (? & ? & _).
Qed.

End tier_facts.

(** C2, as the code has it.  For every dataset, with the 25th and 75th
    percentiles of all density scores as thresholds: a point whose score is
    at most the 25th percentile is Rural; a point whose score is at least
    the 75th percentile, and not at most the 25th, is Urban; every other
    point is Suburban.  Each row keeps its density score. *)
Theorem urban_rural_tiers (coords : list Point) :
  let density := density_scores coords in
  let scores := map Z.of_nat density in
  let lower := percentile scores 25 in
  let upper := percentile scores 75 in
  let low (d : nat) := ∃ lo, lower = Some lo ∧ (inject_Z (Z.of_nat d) <= lo)%Q in
  let high (d : nat) := ∃ up, upper = Some up ∧ (up <= inject_Z (Z.of_nat d))%Q in
  map fst (analysis_1_urban_rural_classification coords) = density
  ∧ Forall (λ row : nat * text,
              (low row.1 → row.2 = txt "Rural")
              ∧ (¬ low row.1 → high row.1 → row.2 = txt "Urban")
              ∧ (¬ low row.1 → ¬ high row.1 → row.2 = txt "Suburban"))
           (analysis_1_urban_rural_classification coords).
Proof.
  cbn zeta. unfold analysis_1_urban_rural_classification.
  rewrite urban_rural_rows, map_map, zip_map_diag.
  split.
  - rewrite map_map. cbn [fst]. apply map_id.
  - apply Forall_map, Forall_forall. intros d _. cbn [fst snd]. unfold tier_of.
    rewrite <- le_threshold_iff, <- ge_threshold_iff.
    destruct (le_threshold _ _), (ge_threshold _ _); split_and!;
      intros; try reflexivity; try discriminate; exfalso; auto.
Qed.

(** C2 as stated fails: in [scattered], every score reaches the 75th
    percentile, and no point is Urban. *)
Lemma urban_rural_tie_counterexample :
  let scores := map Z.of_nat (density_scores scattered) in
  ∃ up, percentile scores 75 = Some up
        ∧ ∃ i d tier, analysis_1_urban_rural_classification scattered !! i = Some (d, tier)
                      ∧ (up <= inject_Z (Z.of_nat d))%Q
                      ∧ tier ≠ txt "Urban".
Proof.
  cbn zeta. eexists. split; [vm_compute; reflexivity|].
  exists 0%nat, 0%nat, (txt "Rural"). split_and!.
  - vm_compute. reflexivity.
  - vm_compute. discriminate.
  - discriminate.
Qed.

(** ** Density scores *)

(** C1 at a failing input.  The two voters of [household] are each
    other's neighbour at distance 0, so the count by index is 1 for both;
    the code's test [distances > 0] leaves out the other voter together
    with the voter itself, and scores both 0. *)
Theorem density_scores_household :
  density_scores household = [0; 0]%nat ∧ density_by_index household = [1; 1]%nat.
Proof. split; vm_compute; reflexivity. Qed.

(** The code and the count by index agree as soon as no two voters share
    a location: the test [distances > 0] then leaves out the voter itself
    and nobody else. *)
Section density_facts.

Lemma dist2_self p : (dist2 p p == 0)%Q.
Proof. unfold dist2. ring. Qed.

Lemma in_radius_self p : in_radius p p = false.
Proof.
  unfold in_radius.
  assert (H : Qle_bool (dist2 p p) 0 = true).
  { apply Qle_bool_iff. rewrite dist2_self. apply Qle_refl. }
  now rewrite H.
Qed.

Lemma in_radius_apart p q :
  (0 < dist2 p q)%Q → in_radius p q = within_radius p q.
Proof.
  intros H. unfold in_radius, within_radius.
  destruct (Qle_bool (dist2 p q) 0) eqn:E; [|reflexivity].
  apply Qle_bool_iff in E. exfalso. eapply Qlt_not_le; eauto.
Qed.

Lemma length_filter_indexed {A} (P : A → Prop) (R : nat * A → Prop)
    `{∀ a, Decision (P a)} `{∀ ja, Decision (R ja)} (l : list A) :
  ∀ n, (∀ j a, l !! j = Some a → (P a ↔ R ((n + j)%nat, a))) →
       length (filter P l) = length (filter R (imap (λ j a, ((n + j)%nat, a)) l)).
Proof.
  induction l as [|a l IH]; intros n HPR; [reflexivity|].
  rewrite imap_cons, !filter_cons.
  assert (Hl : length (filter P l)
               = length (filter R (imap ((λ j a, ((n + j)%nat, a)) ∘ S) l))).
  { rewrite (imap_ext _ (λ j a, ((S n + j)%nat, a))).
    - apply IH. intros j b Hj. rewrite (HPR (S j) b Hj).
      now replace (n + S j)%nat with (S n + j)%nat by lia.
    - intros j b _. cbn. f_equal. lia. }
  pose proof (HPR 0%nat a eq_refl) as Hhead.
  destruct (decide (P a)) as [Hp|Hp], (decide (R ((n + 0)%nat, a))) as [Hr|Hr];
    cbn [length]; try (now rewrite Hl); exfalso; tauto.
Qed.


End density_facts.


(** ** The normaliser: shape of a key, and what a key ignores *)

Section key_shape.

Lemma upper_fixed_not_lower c : upper_char c = c → in_range 97 122 c = false.
Proof. destruct c as [[] [] [] [] [] [] [] []]; vm_compute; congruence. Qed.

Lemma upper_lower_char c : upper_char (lower_char c) = upper_char c.
Proof. destruct c as [[] [] [] [] [] [] [] []]; reflexivity. Qed.

Lemma upper_char_space c : is_space (upper_char c) = is_space c.
Proof. destruct c as [[] [] [] [] [] [] [] []]; reflexivity. Qed.

Lemma lstrip_length s : length (lstrip s) ≤ length s.
Proof.
  induction s as [|c t IH]; cbn; [lia|]. destruct (is_space c); cbn; lia.
Qed.

Lemma lstrip_fixed_head s c : lstrip s = s → head s = Some c → is_space c = false.
Proof.
  destruct s as [|d t]; [discriminate|]. cbn. intros Hs [= ->].
  destruct (is_space c) eqn:E; [|reflexivity].
  pose proof (lstrip_length t) as Hlen. rewrite Hs in Hlen. cbn in Hlen. lia.
Qed.

Lemma rstrip_fixed_last s c : rstrip s = s → last s = Some c → is_space c = false.
Proof.
  induction s as [|d t IH]; [discriminate|]. cbn [rstrip].
  destruct (rstrip t) as [|e t'] eqn:E.
  - destruct (is_space d) eqn:Ed; [discriminate|]. intros [= <-]. cbn.
    intros [= <-]. exact Ed.
  - intros [= <-]. change (last (d :: e :: t')) with (last (e :: t')).
    now apply IH.
Qed.

Lemma spaced_after_space t : spaced true t = true →
  ∀ d, head t = Some d → is_space d = false.
Proof.
  destruct t as [|e t]; [discriminate|]. cbn. intros H d [= ->].
  destruct (is_space d); [|reflexivity]. now rewrite andb_false_r in H.
Qed.

Lemma spaced_single b s :
  spaced b s = true →
  Forall (λ c, is_space c = true → c = " ") s
  ∧ ∀ i c d, s !! i = Some c → s !! S i = Some d →
             is_space c = true → is_space d = false.
Proof.
  revert b. induction s as [|a t IH]; intros b H.
  - split; [constructor | discriminate].
  - cbn in H. destruct (is_space a) eqn:Ea.
    + apply andb_prop in H as [H Ht]. apply andb_prop in H as [Ha _].
      apply bool_decide_eq_true in Ha. destruct (IH _ Ht) as [Hall Hadj].
      split; [constructor; auto|].
      intros [|i] c d Hc Hd Hsp.
      * cbn in Hc, Hd. eapply spaced_after_space; [exact Ht|].
        destruct t; [discriminate | exact Hd].
      * cbn in Hc, Hd. eauto.
    + destruct (IH _ H) as [Hall Hadj].
      split; [constructor; [congruence | exact Hall]|].
      intros [|i] c d Hc Hd Hsp.
      * cbn in Hc. injection Hc as <-. congruence.
      * cbn in Hc, Hd. eauto.
Qed.

Lemma lstrip_map (f : ascii → ascii) s :
  (∀ c, is_space (f c) = is_space c) → lstrip (map f s) = map f (lstrip s).
Proof.
  intros Hf. induction s as [|c t IH]; [reflexivity|].
  cbn. rewrite Hf. destruct (is_space c); [exact IH | reflexivity].
Qed.

Lemma rstrip_map (f : ascii → ascii) s :
  (∀ c, is_space (f c) = is_space c) → rstrip (map f s) = map f (rstrip s).
Proof.
  intros Hf. induction s as [|c t IH]; [reflexivity|].
  cbn. rewrite IH, Hf. destruct (rstrip t); cbn; [|reflexivity].
  destruct (is_space c); reflexivity.
Qed.

Lemma strip_upper s : strip (upper s) = upper (strip s).
Proof.
  unfold strip, upper.
  now rewrite lstrip_map, rstrip_map by apply upper_char_space.
Qed.

End key_shape.



(** ** The geocoder end to end *)

Section geocoder_runs.

(** A key of the lookup leads back to the first reference row that
    cleans to it. *)
Lemma build_lookup_Some_first (addresses : Addresses) (addr_col k : text) (p : Point) :
  build_lookup (reference_rows addresses addr_col) !! k = Some p →
  k ≠ [] ∧ ∃ i ref, rows addresses !! i = Some ref
                    ∧ enhanced_clean (cell ref addr_col) = k ∧ geometry ref = p
                    ∧ ∀ j ref', rows addresses !! j = Some ref' → j < i →
                                enhanced_clean (cell ref' addr_col) ≠ k.
Proof.
  rewrite build_lookup_find. unfold reference_rows.
  case_decide as Hk; [discriminate|]. intros H. split; [exact Hk|].
  destruct (list_find _ _) as [[i [a q]]|] eqn:E; [|discriminate].
  cbn in H. injection H as ->.
  apply list_find_Some in E as (Hi & Ha & Hfirst). cbn in Ha. subst a.
  rewrite list_lookup_fmap in Hi.
  destruct (rows addresses !! i) as [r|] eqn:Er; [|discriminate].
  cbn in Hi. injection Hi as Hkey Hgeo.
  exists i, r. split_and!; [exact Er | exact Hkey | exact Hgeo |].
  intros j r' Hj Hlt Heq.
  apply (Hfirst j (enhanced_clean (cell r' addr_col), geometry r')); [|exact Hlt|].
  - now rewrite list_lookup_fmap, Hj.
  - cbn. congruence.
Qed.

Lemma returned_rows (county_name : text) (voters : list Voter)
    (addresses : Addresses) (output_dir : text) (gdf : list Geocoded) :
  returned (ultra_fast_geocode_county county_name voters addresses output_dir)
  = Some gdf →
  ∃ addr_col cols,
    addr_cols addresses = addr_col :: cols
    ∧ gdf = (geocode voters (build_lookup (reference_rows addresses addr_col))).1
    ∧ gdf ≠ [].
Proof.
  unfold ultra_fast_geocode_county, geocode.
  destruct (addr_cols addresses) as [|addr_col cols]; [discriminate|].
  set (lk := build_lookup (reference_rows addresses addr_col)).
  destruct (match_voters lk (with_clean_address (active_voters voters)))
    as [[|g matches] n] eqn:E; [discriminate|].
  cbn. intros [= <-]. exists addr_col, cols. split_and!; [reflexivity | | discriminate].
  fold lk. now rewrite E.
Qed.

Lemma returned_of_rows (county_name : text) (voters : list Voter)
    (addresses : Addresses) (output_dir addr_col : text) (cols : list text) :
  addr_cols addresses = addr_col :: cols →
  let rows := (geocode voters (build_lookup (reference_rows addresses addr_col))).1 in
  returned (ultra_fast_geocode_county county_name voters addresses output_dir)
  = match rows with [] => None | _ => Some rows end.
Proof.
  intros Hcols. cbn zeta. unfold ultra_fast_geocode_county, geocode. rewrite Hcols.
  destruct (match_voters _ _) as [[|g matches] n]; reflexivity.
Qed.

Lemma geocode_app (voters1 voters2 : list Voter) (lk : gmap text Point) :
  (geocode (voters1 ++ voters2) lk).1 = (geocode voters1 lk).1 ++ (geocode voters2 lk).1.
Proof.
  rewrite !geocode_unfold. cbn [fst]. unfold active_voters, with_clean_address.
  rewrite filter_app, map_app. apply omap_app.
Qed.

Lemma geocode_length_le (voters : list Voter) (lk : gmap text Point) :
  length (geocode voters lk).1 ≤ length voters.
Proof.
  rewrite <- geocode_count. etransitivity; [apply geocode_count_le|].
  apply length_filter.
Qed.

End geocoder_runs.

(** X5. Every row that a run of the geocoder returns belongs to an ACTIVE
    voter whose address is present and cleans to a non-empty key, and
    it carries the coordinates of the first row of the reference layer,
    in row order, whose address cleans to the same key. *)
Theorem geocoded_at_first_reference_row (county_name : text) (voters : list Voter)
    (addresses : Addresses) (output_dir : text) (gdf : list Geocoded) :
  returned (ultra_fast_geocode_county county_name voters addresses output_dir)
  = Some gdf →
  ∃ addr_col,
    head (addr_cols addresses) = Some addr_col
    ∧ Forall
        (λ r,
           let key := enhanced_clean (res_street_address (voter r)) in
           voter_status_desc (voter r) = Some ACTIVE
           ∧ res_street_address (voter r) ≠ None
           ∧ key ≠ []
           ∧ ∃ i ref,
               rows addresses !! i = Some ref
               ∧ enhanced_clean (cell ref addr_col) = key
               ∧ x r = px (geometry ref) ∧ y r = py (geometry ref)
               ∧ ∀ j ref', rows addresses !! j = Some ref' → j < i →
                           enhanced_clean (cell ref' addr_col) ≠ key)
        gdf.
Proof.
  intros Hret. apply returned_rows in Hret as (addr_col & cols & Hcols & -> & _).
  exists addr_col. split; [now rewrite Hcols|].
  set (lk := build_lookup (reference_rows addresses addr_col)).
  pose proof (geocode_voters lk voters) as Hv.
  pose proof (geocode_rows_sound lk voters) as Hs.
  assert (Hact : Forall (λ r, voter_status_desc (voter r) = Some ACTIVE)
                   (geocode voters lk).1).
  { apply Forall_forall. intros r Hr.
    assert (Hin : voter r ∈ filter (hit lk) voters).
    { rewrite <- Hv. apply list_elem_of_fmap. eauto. }
    apply list_elem_of_filter in Hin as [[Ha _] _]. exact Ha. }
  rewrite Forall_forall in Hs, Hact. apply Forall_forall. intros r Hr.
  destruct (Hs r Hr) as (Hkey & Hlk & _). cbn zeta. rewrite <- Hkey.
  apply build_lookup_Some_first in Hlk as (Hne & i & ref & Hi & Hk & Hg & Hfirst).
  split_and!; [now apply Hact | | exact Hne |].
  - intros Hnone. apply Hne. now rewrite Hkey, Hnone.
  - exists i, ref. rewrite Hg. cbn. split_and!; auto.
Qed.

(** The run on the sample layer, where the second row repeats the key of
    the first at another point. *)
Lemma geocoded_at_first_reference_row_oak :
  ∃ addr_col,
    head (addr_cols oak_addresses) = Some addr_col
    ∧ Forall
        (λ r,
           let key := enhanced_clean (res_street_address (voter r)) in
           voter_status_desc (voter r) = Some ACTIVE
           ∧ res_street_address (voter r) ≠ None
           ∧ key ≠ []
           ∧ ∃ i ref,
               rows oak_addresses !! i = Some ref
               ∧ enhanced_clean (cell ref addr_col) = key
               ∧ x r = px (geometry ref) ∧ y r = py (geometry ref)
               ∧ ∀ j ref', rows oak_addresses !! j = Some ref' → j < i →
                           enhanced_clean (cell ref' addr_col) ≠ key)
        [ {| voter := oak_voter "ACTIVE"; clean_address := txt "100 OAK ST";
             x := 100; y := 200; matched := true |} ].
Proof.
  apply (geocoded_at_first_reference_row (txt "Wake")
           [oak_voter "ACTIVE"; oak_voter "INACTIVE"] oak_addresses (txt "out")).
  vm_compute. reflexivity.
Defined.

(** X6. Unless the user's answer, stripped, is 2, [main] reads at most
    1000 voters per county: each county's result then has at most 1000
    rows, and it is a prefix of the result that the full run returns for
    that county. *)
Theorem main_quick_mode_prefix (input : text) (pitt_file : list Voter)
    (pitt_gdb : Addresses) (beaufort_file : list Voter) (beaufort_gdb : Addresses) :
  strip input ≠ txt "2" →
  let quick := geocoding_main.main input pitt_file pitt_gdb beaufort_file beaufort_gdb in
  let full :=
    geocoding_main.main (txt "2") pitt_file pitt_gdb beaufort_file beaufort_gdb in
  (∀ gdf, returned quick.1 = Some gdf →
     length gdf ≤ 1000
     ∧ ∃ all, returned full.1 = Some all ∧ gdf `prefix_of` all)
  ∧ (∀ gdf, returned quick.2 = Some gdf →
       length gdf ≤ 1000
       ∧ ∃ all, returned full.2 = Some all ∧ gdf `prefix_of` all).
Proof.
  intros Hin. cbn zeta.
  assert (Hq : limit_of_choice input = Some 1000%nat).
  { unfold limit_of_choice. cbn zeta. case_bool_decide; [reflexivity|].
    now rewrite bool_decide_eq_false_2. }
  assert (Hf : limit_of_choice (txt "2") = None) by reflexivity.
  assert (Hone : ∀ county_name voter_file addresses gdf,
    returned (ultra_fast_geocode_county_from county_name voter_file addresses
                (txt "../outputs") (Some 1000%nat)) = Some gdf →
    length gdf ≤ 1000
    ∧ ∃ all, returned (ultra_fast_geocode_county_from county_name voter_file addresses
                         (txt "../outputs") None) = Some all
             ∧ gdf `prefix_of` all).
  { intros county_name voter_file addresses gdf.
    unfold ultra_fast_geocode_county_from, read_voters. intros Hret.
    apply returned_rows in Hret as (addr_col & cols & Hcols & -> & Hne).
    set (lk := build_lookup (reference_rows addresses addr_col)) in *.
    split.
    - etransitivity; [apply geocode_length_le|]. rewrite length_take. lia.
    - rewrite (returned_of_rows _ _ _ _ addr_col cols Hcols). fold lk.
      assert (Hsplit : (geocode voter_file lk).1
                       = (geocode (take 1000 voter_file) lk).1
                         ++ (geocode (drop 1000 voter_file) lk).1).
      { now rewrite <- geocode_app, take_drop. }
      rewrite Hsplit.
      destruct (geocode (take 1000 voter_file) lk).1 as [|g rest] eqn:E; [done|].
      cbn [app]. eexists. split; [reflexivity|].
      now exists (geocode (drop 1000 voter_file) lk).1. }
  unfold geocoding_main.main. cbn zeta. rewrite Hq, Hf. cbn [fst snd].
  split; intros gdf; apply Hone.
Qed.

(** The quick run on the sample layer. *)
Lemma main_quick_mode_prefix_oak :
  let files := [oak_voter "ACTIVE"; oak_voter "INACTIVE"] in
  let quick := geocoding_main.main (txt " 1 ") files oak_addresses files oak_addresses in
  let full := geocoding_main.main (txt "2") files oak_addresses files oak_addresses in
  (∀ gdf, returned quick.1 = Some gdf →
     length gdf ≤ 1000
     ∧ ∃ all, returned full.1 = Some all ∧ gdf `prefix_of` all)
  ∧ (∀ gdf, returned quick.2 = Some gdf →
       length gdf ≤ 1000
       ∧ ∃ all, returned full.2 = Some all ∧ gdf `prefix_of` all).
Proof.
  apply (main_quick_mode_prefix (txt " 1 ")). vm_compute. discriminate.
Defined.

(** ** The joins of both counties, and the party statistics *)

Section join_runs.
Variable within : Point → list Point → bool.

Lemma filter_map_comm {A B} (P : B → Prop) `{∀ b, Decision (P b)} (f : A → B)
    (l : list A) :
  filter P (map f l) = map f (filter (λ a, P (f a)) l).
Proof.
  induction l as [|a l IH]; [reflexivity|].
  cbn [map]. rewrite !filter_cons. destruct (decide (P (f a))); cbn [map]; now rewrite IH.
Qed.

Lemma spatial_join_county_Some (county_name : text) (voters : list Geocoded)
    (parcels : list Parcel) (output_dir : text) :
  voters ≠ [] →
  ∃ out, spatial_join_county within county_name voters parcels output_dir = Some out
         ∧ joined out = map (stamp county_name) (sjoin_left within voters parcels).
Proof.
  intros Hne. unfold spatial_join_county. destruct voters as [|v voters]; [done|].
  eexists. split; reflexivity.
Qed.

Lemma spatial_join_county_joined (county_name : text) (voters : list Geocoded)
    (parcels : list Parcel) (output_dir : text) (out : JoinOutcome) :
  spatial_join_county within county_name voters parcels output_dir = Some out →
  voters ≠ [] ∧ joined out = map (stamp county_name) (sjoin_left within voters parcels).
Proof.
  unfold spatial_join_county. destruct voters as [|v voters]; [discriminate|].
  intros [= <-]. split; [discriminate | reflexivity].
Qed.

Lemma concat_ignore_index_lookup (frames : list (list JoinedRow)) (i : nat) (r : JoinedRow) :
  concat_ignore_index frames !! i = Some r ↔
  ∃ r', concat frames !! i = Some r'
        ∧ r = {| voter_index := i; voter_row := voter_row r';
                 parcel_row := parcel_row r'; county := county r' |}.
Proof.
  unfold concat_ignore_index. rewrite list_lookup_imap.
  destruct (concat frames !! i) as [r'|]; cbn.
  - split; [intros [= <-]; eauto | intros (? & [= <-] & ->); reflexivity].
  - split; [discriminate | intros (? & ? & _); discriminate].
Qed.

End join_runs.


Section party_rows.
Variable within : Point → list Point → bool.
Variable parcels : list Parcel.

Lemma main_parties_filter (joined_data : list JoinedRow) :
  main_parties joined_data = filter in_party_stats joined_data.
Proof.
  unfold main_parties, valid_data. rewrite list_filter_filter. reflexivity.
Qed.

Lemma isin_Some_party (v : Geocoded) :
  isin main_party_names (party_cd (voter v)) = true → party_cd (voter v) ≠ None.
Proof. destruct (party_cd (voter v)); [discriminate | discriminate]. Qed.

Lemma party_rows_of_one (county_name : text) (i : nat) (v : Geocoded) :
  length (filter (λ r, in_party_stats (stamp county_name r))
            (sjoin_one within parcels i v))
  = if isin main_party_names (party_cd (voter v))
    then length (valued_hits within parcels (location v)) else 0%nat.
Proof.
  destruct (isin main_party_names (party_cd (voter v))) eqn:Ep.
  - unfold sjoin_one, valued_hits.
    destruct (containing within parcels (location v)) as [|h hs] eqn:E.
    + rewrite filter_cons, decide_False; [reflexivity|].
      intros (_ & Hp & _). now apply Hp.
    + generalize (h :: hs). intros hits.
      induction hits as [|[j pc] hits IH]; [reflexivity|].
      cbn [map]. rewrite !filter_cons. cbn [snd].
      destruct (decide (parval pc ≠ None)) as [Hpv|Hpv].
      * rewrite decide_True; [cbn [length]; now rewrite IH|].
        split_and!; [exact Ep | exact Hpv | now apply isin_Some_party].
      * rewrite decide_False; [exact IH|].
        intros (_ & Hp & _). now apply Hpv.
  - rewrite filter_none; [reflexivity|].
    eapply Forall_impl; [apply (sjoin_one_left within parcels i v)|].
    cbn beta. intros r Hr [Hin _]. unfold row_party in Hin. cbn in Hin.
    rewrite Hr in Hin. congruence.
Qed.

End party_rows.

(** X8. In the party statistics of a county's join, the voter at each
    position contributes no row unless the party is DEM, REP or UNA, and
    then one row per parcel that holds the voter's point and has a
    property value: none for a voter outside every parcel, two for a voter
    inside two overlapping valued parcels. *)
Theorem party_stats_rows_per_voter (within : Point → list Point → bool)
    (county_name : text) (voters : list Geocoded) (parcels : list Parcel)
    (output_dir : text) (out : JoinOutcome) (i : nat) (v : Geocoded) :
  spatial_join_county within county_name voters parcels output_dir = Some out →
  voters !! i = Some v →
  length (filter (λ r, voter_index r = i) (main_parties (joined out)))
  = if isin main_party_names (party_cd (voter v))
    then length (valued_hits within parcels (location v)) else 0%nat.
Proof.
  intros Hout Hi. apply spatial_join_county_joined in Hout as [_ ->].
  rewrite main_parties_filter, list_filter_filter.
  rewrite (list_filter_iff _ (λ r, in_party_stats r ∧ voter_index r = i))
    by (intros r; tauto).
  rewrite <- list_filter_filter, !filter_map_comm, length_map. cbn [stamp voter_index].
  rewrite (sjoin_left_rows_of within parcels voters i v Hi).
  apply party_rows_of_one.
Qed.

(** The voter of [overlap_voters], registered UNA, lies in both valued
    parcels of [overlap_parcels]. *)
Lemma party_stats_rows_per_voter_overlap :
  ∃ out v,
    length (filter (λ r, voter_index r = 0%nat) (main_parties (joined out)))
    = (if isin main_party_names (party_cd (voter v))
       then length (valued_hits within_box overlap_parcels (location v)) else 0%nat)
    ∧ length (valued_hits within_box overlap_parcels (location v)) = 2%nat.
Proof.
  eexists. eexists. split.
  - eapply (party_stats_rows_per_voter within_box (txt "Wake") overlap_voters
              overlap_parcels (txt "out")); reflexivity.
  - reflexivity.
Defined.

(** X9. The analyses look for the property value column among the
    columns whose name mentions parval; the join also accepts a name that
    mentions value.  On one and the same list of columns the analyses'
    candidates are the join's candidates that mention parval, so the
    two choices agree exactly when the join's first candidate mentions
    parval, and the analyses find no column when the join finds none. *)
Theorem parval_choice_analyses_vs_join (columns : list text) :
  let mentions_parval (col : text) := contains (txt "parval") (lower col) = true in
  let join_choice := parval_field columns in
  let analysis_choice := head (additional_analyses_more.parval_cols columns) in
  additional_analyses_more.parval_cols columns
  = filter mentions_parval (spatial_joins_main.parval_cols columns)
  ∧ (join_choice = None → analysis_choice = None)
  ∧ (∀ col, join_choice = Some col →
       (mentions_parval col → analysis_choice = Some col)
       ∧ (¬ mentions_parval col → analysis_choice ≠ Some col))
  ∧ (∀ col, analysis_choice = Some col → col ∈ spatial_joins_main.parval_cols columns).
Proof.
  cbn zeta.
  assert (Heq : additional_analyses_more.parval_cols columns
                = filter (λ col, contains (txt "parval") (lower col) = true)
                    (spatial_joins_main.parval_cols columns)).
  { unfold additional_analyses_more.parval_cols, spatial_joins_main.parval_cols.
    rewrite list_filter_filter. apply list_filter_iff. intros col.
    split; [intros H; split; [exact H | now rewrite H] | now intros [H _]]. }
  unfold parval_field. rewrite Heq. split_and!.
  - reflexivity.
  - destruct (spatial_joins_main.parval_cols columns); [reflexivity | discriminate].
  - intros col Hcol.
    destruct (spatial_joins_main.parval_cols columns) as [|c cs]; [discriminate|].
    injection Hcol as ->. rewrite filter_cons. split.
    + intros Hm. now rewrite decide_True.
    + intros Hm Hhead. apply Hm.
      assert (Hin : col ∈ filter (λ col, contains (txt "parval") (lower col) = true)
                          (col :: cs)).
      { rewrite filter_cons. apply head_Some_elem_of. exact Hhead. }
      now apply list_elem_of_filter in Hin as [? _].
  - intros col Hhead. apply head_Some_elem_of in Hhead.
    now apply list_elem_of_filter in Hhead as [_ ?].
Qed.

(** ** Interpolated quantiles lie between the extremes *)

Section quantile_bounds.

Lemma lerp_bounds (lo hi a b g : Q) :
  (lo <= a)%Q → (a <= hi)%Q → (lo <= b)%Q → (b <= hi)%Q →
  (0 <= g)%Q → (g <= 1)%Q →
  (lo <= a + (b - a) * g)%Q ∧ (a + (b - a) * g <= hi)%Q.
Proof. intros. split; nra. Qed.

(** The two positions between which a quantile is interpolated lie in
    the array, and the weight lies between 0 and 1. *)
Lemma virtual_index_bounds (n : Z) (q : Q) :
  (1 ≤ n)%Z → (0 <= q)%Q → (q <= 1)%Q →
  let virtual_index := (inject_Z (n - 1) * q)%Q in
  let previous_index := Qfloor virtual_index in
  let next_index := Z.min (previous_index + 1) (n - 1) in
  (0 ≤ previous_index < n)%Z ∧ (0 ≤ next_index < n)%Z
  ∧ (0 <= virtual_index - inject_Z previous_index)%Q
  ∧ (virtual_index - inject_Z previous_index <= 1)%Q.
Proof.
  intros Hn Hq0 Hq1. cbn zeta. set (vi := (inject_Z (n - 1) * q)%Q).
  assert (Hn1 : (0 <= inject_Z (n - 1))%Q).
  { change 0%Q with (inject_Z 0). rewrite <- Zle_Qle. lia. }
  assert (Hvi0 : (0 <= vi)%Q) by (subst vi; nra).
  assert (Hvi1 : (vi <= inject_Z (n - 1))%Q) by (subst vi; nra).
  assert (Hp0 : (0 ≤ Qfloor vi)%Z).
  { rewrite <- (Qfloor_Z 0). now apply Qfloor_resp_le. }
  assert (Hp1 : (Qfloor vi ≤ n - 1)%Z).
  { rewrite <- (Qfloor_Z (n - 1)). now apply Qfloor_resp_le. }
  pose proof (Qfloor_le vi) as Hfl. pose proof (Qlt_floor vi) as Hlt.
  rewrite inject_Z_plus in Hlt. change (inject_Z 1) with 1%Q in Hlt.
  split_and!; try lia; lra.
Qed.

Lemma nth_Forall {A} (P : A → Prop) (l : list A) (i : nat) (d : A) :
  Forall P l → (i < length l)%nat → P (nth i l d).
Proof.
  intros Hall Hi. rewrite Forall_forall in Hall. apply Hall.
  apply list_elem_of_In. now apply nth_In.
Qed.

Lemma percentile_bounds (a : list Z) (q : Z) (v : Q) (lo hi : Z) :
  percentile a q = Some v → (0 ≤ q ≤ 100)%Z →
  Forall (λ s, lo ≤ s ≤ hi)%Z a →
  (inject_Z lo <= v)%Q ∧ (v <= inject_Z hi)%Q.
Proof.
  intros Hv Hq Hall. unfold percentile in Hv.
  assert (Hsorted : Forall (λ s, lo ≤ s ≤ hi)%Z (merge_sort Z.le a)).
  { now rewrite merge_sort_Permutation. }
  destruct (merge_sort Z.le a) as [|s0 arr] eqn:E; [discriminate|].
  cbn zeta in Hv. injection Hv as <-.
  set (n := Z.of_nat (length (s0 :: arr))) in *.
  assert (Hq0 : (0 <= inject_Z q / 100)%Q).
  { apply Qle_shift_div_l; [reflexivity|]. rewrite Qmult_0_l.
    change 0%Q with (inject_Z 0). rewrite <- Zle_Qle. lia. }
  assert (Hq1 : (inject_Z q / 100 <= 1)%Q).
  { apply Qle_shift_div_r; [reflexivity|]. rewrite Qmult_1_l.
    change 100%Q with (inject_Z 100). rewrite <- Zle_Qle. lia. }
  destruct (virtual_index_bounds n (inject_Z q / 100)) as (Hp & Hx & Hg0 & Hg1);
    [subst n; cbn [length]; lia | exact Hq0 | exact Hq1 |].
  cbn zeta in Hp, Hx, Hg0, Hg1.
  set (vi := (inject_Z (n - 1) * (inject_Z q / 100))%Q) in *.
  assert (Hprev : (lo ≤ nth (Z.to_nat (Qfloor vi)) (s0 :: arr) 0 ≤ hi)%Z).
  { apply (nth_Forall (λ s, lo ≤ s ≤ hi)%Z); [exact Hsorted | subst n; lia]. }
  assert (Hnext : (lo ≤ nth (Z.to_nat (Z.min (Qfloor vi + 1) (n - 1))) (s0 :: arr) 0
                   ≤ hi)%Z).
  { apply (nth_Forall (λ s, lo ≤ s ≤ hi)%Z); [exact Hsorted | subst n; lia]. }
  destruct Hprev as [Hpl Hph], Hnext as [Hnl Hnh].
  rewrite Zle_Qle in Hpl, Hph, Hnl, Hnh.
  now apply lerp_bounds.
Qed.

Lemma quantile_bounds (a : list Q) (q v lo hi : Q) :
  quantile a q = Some v → (0 <= q)%Q → (q <= 1)%Q →
  Forall (λ d, lo <= d ∧ d <= hi)%Q a →
  (lo <= v)%Q ∧ (v <= hi)%Q.
Proof.
  intros Hv Hq0 Hq1 Hall. unfold quantile in Hv.
  assert (Hsorted : Forall (λ d, lo <= d ∧ d <= hi)%Q
                      (merge_sort Qle (H := Qle_decide) a)).
  { now rewrite merge_sort_Permutation. }
  destruct (merge_sort Qle a) as [|s0 arr] eqn:E; [discriminate|].
  cbn zeta in Hv. injection Hv as <-.
  set (n := Z.of_nat (length (s0 :: arr))) in *.
  destruct (virtual_index_bounds n q) as (Hp & Hx & Hg0 & Hg1);
    [subst n; cbn [length]; lia | exact Hq0 | exact Hq1 |].
  cbn zeta in Hp, Hx, Hg0, Hg1.
  set (vi := (inject_Z (n - 1) * q)%Q) in *.
  destruct (nth_Forall (λ d, lo <= d ∧ d <= hi)%Q (s0 :: arr)
              (Z.to_nat (Qfloor vi)) 0%Q Hsorted) as [Hpl Hph]; [subst n; lia|].
  destruct (nth_Forall (λ d, lo <= d ∧ d <= hi)%Q (s0 :: arr)
              (Z.to_nat (Z.min (Qfloor vi + 1) (n - 1))) 0%Q Hsorted) as [Hnl Hnh];
    [subst n; lia|].
  now apply lerp_bounds.
Qed.

Lemma percentile_Some (a : list Z) (q : Z) :
  a ≠ [] → ∃ v, percentile a q = Some v.
Proof.
  intros Hne. unfold percentile.
  destruct (merge_sort Z.le a) as [|s0 arr] eqn:E; [|eauto].
  exfalso. apply Hne. apply Permutation_nil_r. rewrite <- E.
  symmetry. apply merge_sort_Permutation.
Qed.

Lemma quantile_Some (a : list Q) (q : Q) :
  a ≠ [] → ∃ v, quantile a q = Some v.
Proof.
  intros Hne. unfold quantile.
  destruct (merge_sort Qle a) as [|s0 arr] eqn:E; [|eauto].
  exfalso. apply Hne. apply Permutation_nil_r. rewrite <- E.
  symmetry. apply merge_sort_Permutation.
Qed.

End quantile_bounds.

Lemma list_min_exists (l : list nat) :
  l ≠ [] → ∃ d, d ∈ l ∧ Forall (λ d', d ≤ d') l.
Proof.
  induction l as [|a l IH]; [done|]. intros _.
  destruct l as [|b l].
  - exists a. split; [left | repeat constructor].
  - destruct IH as (m & Hm & Hall); [discriminate|].
    destruct (decide (a ≤ m)) as [Ham|Ham].
    + exists a. split; [left|]. constructor; [lia|].
      eapply Forall_impl; [exact Hall|]. cbn. lia.
    + exists m. split; [now right|]. constructor; [lia | exact Hall].
Qed.

Lemma analysis_1_rows (coords : list Point) :
  analysis_1_urban_rural_classification coords
  = map (λ d, (d, tier_of (percentile (map Z.of_nat (density_scores coords)) 25)
                          (percentile (map Z.of_nat (density_scores coords)) 75)
                          (Z.of_nat d)))
        (density_scores coords).
Proof.
  unfold analysis_1_urban_rural_classification.
  now rewrite urban_rural_rows, map_map, zip_map_diag.
Qed.

Lemma tier_of_lowest (density : list nat) (d : nat) :
  d ∈ density → Forall (λ d', d ≤ d') density →
  tier_of (percentile (map Z.of_nat density) 25) (percentile (map Z.of_nat density) 75)
          (Z.of_nat d) = txt "Rural".
Proof.
  intros Hin Hmin.
  destruct (percentile_Some (map Z.of_nat density) 25) as [lo Hlo].
  { destruct density; [inversion Hin | discriminate]. }
  destruct (percentile_bounds _ 25 lo (Z.of_nat d) (Z.of_nat d + Z.of_nat (sum_list density))
              Hlo) as [Hle _]; [lia | |].
  { apply Forall_map. rewrite Forall_forall in Hmin. apply Forall_forall.
    intros d' Hd'. pose proof (Hmin d' Hd').
    pose proof (sum_list_with_in d' id density Hd'). unfold id in *.
    change (sum_list_with (λ x, x) density) with (sum_list density) in *. lia. }
  unfold tier_of. rewrite Hlo. cbn [le_threshold].
  apply Qle_bool_iff in Hle. now rewrite Hle.
Qed.

Lemma tier_of_highest (density : list nat) (d : nat) :
  d ∈ density → Forall (λ d', d' ≤ d) density →
  tier_of (percentile (map Z.of_nat density) 25) (percentile (map Z.of_nat density) 75)
          (Z.of_nat d) ≠ txt "Suburban".
Proof.
  intros Hin Hmax.
  destruct (percentile_Some (map Z.of_nat density) 75) as [up Hup].
  { destruct density; [inversion Hin | discriminate]. }
  destruct (percentile_bounds _ 75 up 0 (Z.of_nat d) Hup) as [_ Hge]; [lia | |].
  { apply Forall_map. eapply Forall_impl; [exact Hmax|]. cbn. lia. }
  unfold tier_of. rewrite Hup. cbn [ge_threshold].
  apply Qle_bool_iff in Hge. rewrite Hge.
  destruct (le_threshold _ _); discriminate.
Qed.

(** X10. In every dataset the points with the lowest density score are
    Rural and the points with the highest density score are never
    Suburban; so a dataset that is not empty always has a Rural point,
    however dense it is. *)
Theorem urban_rural_extremes (coords : list Point) :
  let rows := analysis_1_urban_rural_classification coords in
  (∀ i d tier, rows !! i = Some (d, tier) →
     (Forall (λ d', d ≤ d') (density_scores coords) → tier = txt "Rural")
     ∧ (Forall (λ d', d' ≤ d) (density_scores coords) → tier ≠ txt "Suburban"))
  ∧ (coords ≠ [] → Exists (λ row, row.2 = txt "Rural") rows).
Proof.
  cbn zeta. rewrite analysis_1_rows. split.
  - intros i d tier Hi. rewrite list_lookup_fmap in Hi.
    destruct (density_scores coords !! i) as [d0|] eqn:Ed; [|discriminate].
    cbn in Hi. injection Hi as -> <-.
    apply list_elem_of_lookup_2 in Ed.
    split; intros H; [now apply tier_of_lowest | now apply tier_of_highest].
  - intros Hne.
    destruct (list_min_exists (density_scores coords)) as (d & Hd & Hmin).
    { unfold density_scores. destruct coords; [done | discriminate]. }
    apply Exists_exists. eexists (d, _). split.
    + apply list_elem_of_fmap. exists d. split; [reflexivity | exact Hd].
    + cbn. now apply tier_of_lowest.
Qed.

(** ** Age groups and recent registrants *)

Section age_facts.

Lemma age_group_rows (data : list Voter) :
  age_group data = map (λ v, age_group_of (birth_year v)) data.
Proof.
  unfold age_group. rewrite !map_map, !loc_assign_map.
  apply map_ext. intros v. unfold age_group_of, year_is, age.
  destruct (birth_year v) as [yr|]; [|reflexivity].
  destruct (1995 <? yr)%Z eqn:E1, (1980 <? yr)%Z eqn:E2, (1960 <? yr)%Z eqn:E3,
    (2025 - yr <? 30)%Z eqn:A1, (30 <=? 2025 - yr)%Z eqn:A2,
    (2025 - yr <? 45)%Z eqn:A3, (45 <=? 2025 - yr)%Z eqn:A4,
    (2025 - yr <? 65)%Z eqn:A5, (65 <=? 2025 - yr)%Z eqn:A6;
    try reflexivity; exfalso; lia.
Qed.

End age_facts.


(** X16. The recent registrants that analysis 5 reports on are, in row
    order, exactly the rows that it labels "2020-Present". *)
Theorem recent_registrants_are_2020_present (to_datetime_year : text → option Z)
    (data : list Voter) :
  recent_registrants to_datetime_year data
  = map fst (filter (λ row : Voter * text, row.2 = txt "2020-Present")
               (zip data (registration_period to_datetime_year data))).
Proof.
  rewrite registration_period_rows, zip_map_diag.
  unfold recent_registrants.
  induction data as [|v data IH]; [reflexivity|].
  cbn [map]. rewrite !filter_cons. cbn [snd]. rewrite IH.
  unfold period_of, year_is.
  destruct (registration_year to_datetime_year v) as [yr|].
  - destruct (yr <? 2000)%Z eqn:E1, (yr <? 2010)%Z eqn:E2, (yr <? 2020)%Z eqn:E3,
      (2020 <=? yr)%Z eqn:E4; try (exfalso; lia);
      (rewrite decide_False by discriminate; rewrite decide_False by discriminate;
       reflexivity)
      || (rewrite decide_True by reflexivity; rewrite decide_True by reflexivity;
          reflexivity).
  - rewrite decide_False by discriminate. rewrite decide_False by discriminate.
    reflexivity.
Qed.

(** ** County centers and distance categories *)

Section center_facts.

Lemma elem_of_unique (l : list text) (a : text) : a ∈ unique l ↔ a ∈ l.
Proof.
  induction l as [|b l IH]; [reflexivity|]. cbn [unique].
  rewrite !elem_of_cons, list_elem_of_filter, IH.
  destruct (decide (a = b)); tauto.
Qed.

Lemma NoDup_unique (l : list text) : NoDup (unique l).
Proof.
  induction l as [|b l IH]; [constructor|]. cbn [unique]. constructor.
  - rewrite list_elem_of_filter. now intros [? _].
  - now apply NoDup_filter.
Qed.

Lemma fold_insert_lookup {V} (f : text → V) (names : list text) (m : gmap text V)
    (k : text) :
  fold_left (λ centers name, <[name := f name]> centers) names m !! k
  = if decide (k ∈ names) then Some (f k) else m !! k.
Proof.
  revert m. induction names as [|a names IH]; intros m.
  - cbn. rewrite decide_False; [reflexivity | apply not_elem_of_nil].
  - cbn [fold_left]. rewrite IH.
    destruct (decide (k ∈ names)) as [Hin|Hin].
    + rewrite decide_True by (now right). reflexivity.
    + destruct (decide (k = a)) as [->|Hne].
      * rewrite decide_True by left. now rewrite lookup_insert_eq.
      * rewrite decide_False by (rewrite elem_of_cons; tauto).
        now rewrite lookup_insert_ne.
Qed.

Lemma county_centers_lookup (combined_data : list JoinedRow) (name : text) :
  county_centers combined_data !! name
  = if decide (name ∈ map county combined_data)
    then Some (center_point (county_voters combined_data name)) else None.
Proof.
  unfold county_centers. rewrite fold_insert_lookup, lookup_empty.
  destruct (decide (name ∈ unique (map county combined_data))) as [Hin|Hin].
  - rewrite elem_of_unique in Hin. now rewrite decide_True.
  - rewrite elem_of_unique in Hin. now rewrite decide_False.
Qed.

Lemma county_centers_row (combined_data : list JoinedRow) (r : JoinedRow) :
  r ∈ combined_data →
  county_centers combined_data !! county r
  = Some (center_point (county_voters combined_data (county r))).
Proof.
  intros Hin. rewrite county_centers_lookup, decide_True; [reflexivity|].
  apply list_elem_of_fmap. eauto.
Qed.

Lemma distances_Some (distance : Point → Point → Q) (combined_data : list JoinedRow) :
  mapM (calc_distance_to_center distance (county_centers combined_data)) combined_data
  = Some (map (λ r, distance (row_point r)
                      (center_point (county_voters combined_data (county r))))
              combined_data).
Proof.
  apply mapM_Some. apply Forall2_fmap_r, Forall_Forall2_diag, Forall_forall.
  intros r Hr. unfold calc_distance_to_center.
  now rewrite (county_centers_row combined_data r Hr).
Qed.

End center_facts.

Section category_facts.

Lemma distance_category_length (distance_to_center : list Q) :
  length (distance_category distance_to_center) = length distance_to_center.
Proof.
  unfold distance_category. rewrite !loc_assign_map. apply length_map.
Qed.

Lemma distance_category_rows (distance_to_center : list Q) (q25 q50 q75 : Q) :
  quantile distance_to_center (1 # 4) = Some q25 →
  quantile distance_to_center (1 # 2) = Some q50 →
  quantile distance_to_center (3 # 4) = Some q75 →
  distance_category distance_to_center
  = map (λ d, nth (distance_rank q25 q50 q75 d) distance_labels (txt "Unknown"))
        distance_to_center.
Proof.
  intros E25 E50 E75. unfold distance_category. rewrite E25, E50, E75.
  rewrite !loc_assign_map. apply map_ext. intros d.
  unfold le_quantile, gt_quantile, distance_rank.
  destruct (Qle_bool d q25), (Qle_bool d q50), (Qle_bool d q75); reflexivity.
Qed.

Lemma distance_rank_label (q25 q50 q75 d : Q) :
  distance_labels !! distance_rank q25 q50 q75 d
  = Some (nth (distance_rank q25 q50 q75 d) distance_labels (txt "Unknown")).
Proof.
  unfold distance_rank.
  destruct (Qle_bool d q25), (Qle_bool d q50), (Qle_bool d q75); reflexivity.
Qed.

Lemma Qle_bool_mono (d d' q : Q) :
  (d <= d')%Q → Qle_bool d' q = true → Qle_bool d q = true.
Proof.
  rewrite !Qle_bool_iff. intros H1 H2. now apply Qle_trans with d'.
Qed.

Lemma distance_rank_mono (q25 q50 q75 d d' : Q) :
  (d <= d')%Q → distance_rank q25 q50 q75 d ≤ distance_rank q25 q50 q75 d'.
Proof.
  intros Hle. unfold distance_rank.
  destruct (Qle_bool d' q75) eqn:E75;
    [rewrite (Qle_bool_mono d d' q75 Hle E75) | destruct (Qle_bool d q75)];
  (destruct (Qle_bool d' q50) eqn:E50;
    [rewrite (Qle_bool_mono d d' q50 Hle E50) | destruct (Qle_bool d q50)]);
  (destruct (Qle_bool d' q25) eqn:E25;
    [rewrite (Qle_bool_mono d d' q25 Hle E25) | destruct (Qle_bool d q25)]);
  cbn; lia.
Qed.

Lemma list_upper_bound (l : list Q) : ∃ hi : Q, Forall (λ d, d <= hi)%Q l.
Proof.
  induction l as [|a l [hi IH]]; [exists 0%Q; constructor|].
  destruct (Qlt_le_dec hi a) as [Hlt|Hle].
  - exists a. constructor; [apply Qle_refl|].
    eapply Forall_impl; [exact IH|]. cbn. intros d Hd.
    apply Qle_trans with hi; [exact Hd | now apply Qlt_le_weak].
  - exists hi. now constructor.
Qed.

Lemma quantile_ge_min (a : list Q) (q v d : Q) :
  quantile a q = Some v → (0 <= q)%Q → (q <= 1)%Q →
  Forall (Qle d) a → (d <= v)%Q.
Proof.
  intros Hv Hq0 Hq1 Hmin. destruct (list_upper_bound a) as [hi Hhi].
  apply (quantile_bounds a q v d hi Hv Hq0 Hq1).
  apply Forall_and. split; assumption.
Qed.

End category_facts.

(** X14. On a table with at least one row the distance analysis never
    fails on a missing county: every row is measured against the center
    of its own county, which is the mean of the coordinates of that
    county's rows, and one center is saved for each county of the table. *)
Theorem distance_to_own_county_center (distance : Point → Point → Q)
    (combined_data : list JoinedRow) :
  combined_data ≠ [] →
  ∃ rows centers,
    analysis_4_distance_to_county_centers distance combined_data = Some (rows, centers)
    ∧ Forall2 (λ r (row : Q * text),
                 row.1 = distance (row_point r)
                           (center_point (county_voters combined_data (county r))))
              combined_data rows
    ∧ NoDup (map fst centers)
    ∧ (∀ name, name ∈ map fst centers ↔ name ∈ map county combined_data)
    ∧ Forall (λ nc : text * Point,
                nc.2 = center_point (county_voters combined_data nc.1)
                ∧ county_voters combined_data nc.1 ≠ []) centers.
Proof.
  intros _. unfold analysis_4_distance_to_county_centers. rewrite distances_Some.
  eexists. eexists. split; [reflexivity|]. split_and!.
  - apply Forall2_same_length_lookup. split.
    + now rewrite length_zip_with, distance_category_length, !length_map, Nat.min_id.
    + intros i r row Hr Hrow. apply lookup_zip_with_Some in Hrow
        as (d & c & -> & Hd & _). cbn [fst].
      rewrite list_lookup_fmap, Hr in Hd. now injection Hd as <-.
  - rewrite map_map. cbn [fst]. rewrite map_id. apply NoDup_unique.
  - intros name. rewrite map_map. cbn [fst]. rewrite map_id. apply elem_of_unique.
  - apply Forall_map, Forall_forall. intros name Hname. cbn [fst snd].
    rewrite elem_of_unique in Hname. rewrite county_centers_lookup.
    rewrite decide_True by exact Hname. split; [reflexivity|].
    apply list_elem_of_fmap in Hname as (r & -> & Hr).
    intros Hnil. eapply (filter_nil_not_elem_of _ _ r) in Hnil; [done | reflexivity].
Qed.

Lemma distance_to_own_county_center_two_counties :
  two_counties ≠ []
  ∧ ∃ rows centers,
      analysis_4_distance_to_county_centers taxicab two_counties = Some (rows, centers)
      ∧ Forall2 (λ r (row : Q * text),
                   row.1 = taxicab (row_point r)
                             (center_point (county_voters two_counties (county r))))
                two_counties rows
      ∧ NoDup (map fst centers)
      ∧ (∀ name, name ∈ map fst centers ↔ name ∈ map county two_counties)
      ∧ Forall (λ nc : text * Point,
                  nc.2 = center_point (county_voters two_counties nc.1)
                  ∧ county_voters two_counties nc.1 ≠ []) centers.
Proof.
  split; [discriminate|].
  apply (distance_to_own_county_center taxicab two_counties). discriminate.
Defined.

(** X15. The distance categories follow the distances: each row gets one
    of the four quartile labels, never the initial Unknown; a row that is
    no farther from its center than another row never gets a farther
    category; and a row at the least distance is Very Close. *)
Theorem distance_category_by_rank (distance_to_center : list Q) :
  ∃ rank : Q → nat,
    Forall2 (λ d c, distance_labels !! rank d = Some c)
            distance_to_center (distance_category distance_to_center)
    ∧ (∀ d d' : Q, (d <= d')%Q → rank d ≤ rank d')
    ∧ (∀ d : Q, d ∈ distance_to_center → Forall (Qle d) distance_to_center →
         rank d = 0).
Proof.
  destruct (decide (distance_to_center = [])) as [->|Hne].
  { exists (λ _, 0). split_and!; [constructor | reflexivity | reflexivity]. }
  destruct (quantile_Some distance_to_center (1 # 4) Hne) as [q25 E25].
  destruct (quantile_Some distance_to_center (1 # 2) Hne) as [q50 E50].
  destruct (quantile_Some distance_to_center (3 # 4) Hne) as [q75 E75].
  exists (distance_rank q25 q50 q75). split_and!.
  - rewrite (distance_category_rows _ _ _ _ E25 E50 E75).
    apply Forall2_fmap_r, Forall_Forall2_diag, Forall_forall.
    intros d _. apply distance_rank_label.
  - apply distance_rank_mono.
  - intros d _ Hmin. unfold distance_rank.
    assert (H25 : Qle_bool d q25 = true).
    { apply Qle_bool_iff.
      now apply (quantile_ge_min distance_to_center (1 # 4) q25 d E25). }
    assert (H50 : Qle_bool d q50 = true).
    { apply Qle_bool_iff.
      now apply (quantile_ge_min distance_to_center (1 # 2) q50 d E50). }
    assert (H75 : Qle_bool d q75 = true).
    { apply Qle_bool_iff.
      now apply (quantile_ge_min distance_to_center (3 # 4) q75 d E75). }
    now rewrite H25, H50, H75.
Qed.

(** ** Sample schools and their buffers *)

Section school_facts.

Lemma insert_desc_Permutation {A} (key : A → nat) (a : A) (l : list A) :
  insert_desc key a l ≡ₚ a :: l.
Proof.
  induction l as [|b l IH]; [reflexivity|]. cbn [insert_desc].
  destruct (key b <=? key a)%nat; [reflexivity|].
  rewrite IH. apply Permutation_swap.
Qed.

Lemma sort_desc_Permutation {A} (key : A → nat) (l : list A) :
  sort_desc key l ≡ₚ l.
Proof.
  induction l as [|a l IH]; [reflexivity|]. cbn [sort_desc foldr].
  rewrite insert_desc_Permutation. now constructor.
Qed.

Lemma insert_desc_sorted {A} (key : A → nat) (a : A) (l : list A) :
  StronglySorted (λ x y, key y ≤ key x) l →
  StronglySorted (λ x y, key y ≤ key x) (insert_desc key a l).
Proof.
  induction 1 as [|b l Hl IH Hb]; [repeat constructor|]. cbn [insert_desc].
  destruct (key b <=? key a)%nat eqn:E.
  - apply Nat.leb_le in E. constructor; [now constructor|]. constructor; [exact E|].
    eapply Forall_impl; [exact Hb|]. cbn. lia.
  - apply Nat.leb_gt in E. constructor; [exact IH|].
    rewrite insert_desc_Permutation. constructor; [lia | exact Hb].
Qed.

Lemma sort_desc_sorted {A} (key : A → nat) (l : list A) :
  StronglySorted (λ x y, key y ≤ key x) (sort_desc key l).
Proof.
  induction l as [|a l IH]; [constructor|]. now apply insert_desc_sorted.
Qed.

Lemma omap_id_cons {A} (o : option A) (l : list (option A)) :
  omap id (o :: l) = match o with Some a => a :: omap id l | None => omap id l end.
Proof. reflexivity. Qed.

Lemma school_at_fourth (b : nat) (voter : JoinedRow * nat) :
  school_at (4 * b) voter = Some (school_of b voter).
Proof.
  unfold school_at, school_of.
  rewrite (Nat.mul_comm 4 b), Nat.Div0.mod_mul, Nat.div_mul by discriminate.
  reflexivity.
Qed.

Lemma school_at_between (b r : nat) (voter : JoinedRow * nat) :
  0 < r < 4 → school_at (4 * b + r) voter = None.
Proof.
  intros Hr. unfold school_at.
  rewrite (Nat.add_comm (4 * b) r), (Nat.mul_comm 4 b), Nat.Div0.mod_add,
    Nat.mod_small by lia.
  rewrite bool_decide_eq_false_2 by lia. reflexivity.
Qed.

(** Of the rows numbered from [4 * b], the loop keeps the first, the
    fifth, the ninth and so on. *)
Lemma schools_from_lookup (k : nat) :
  ∀ (b : nat) (l : list (JoinedRow * nat)),
    omap id (imap (λ i, school_at (4 * b + i)) l) !! k
    = school_of (b + k) <$> l !! (4 * k).
Proof.
  induction k as [|k IH]; intros b l.
  - destruct l as [|a0 l]; [reflexivity|].
    rewrite imap_cons, omap_id_cons, Nat.add_0_r, school_at_fourth, Nat.add_0_r.
    reflexivity.
  - replace (4 * S k) with (S (S (S (S (4 * k))))) by lia.
    destruct l as [|a0 [|a1 [|a2 [|a3 l]]]].
    + reflexivity.
    + rewrite imap_cons, omap_id_cons, Nat.add_0_r, school_at_fourth. reflexivity.
    + rewrite !imap_cons, !omap_id_cons, Nat.add_0_r, school_at_fourth. cbn [compose].
      rewrite (school_at_between b 1) by lia. reflexivity.
    + rewrite !imap_cons, !omap_id_cons, Nat.add_0_r, school_at_fourth. cbn [compose].
      rewrite (school_at_between b 1), (school_at_between b 2) by lia. reflexivity.
    + rewrite !imap_cons, !omap_id_cons, Nat.add_0_r, school_at_fourth. cbn [compose].
      rewrite (school_at_between b 1), (school_at_between b 2),
        (school_at_between b 3) by lia.
      rewrite (imap_ext _ (λ i, school_at (4 * S b + i))) by (intros; cbn; f_equal; lia).
      change ((school_of b a0 :: ?t) !! S k) with (t !! k).
      rewrite IH. cbn [lookup list_lookup]. now replace (S b + k) with (b + S k) by lia.
Qed.

Lemma schools_data_lookup (combined_data : list (JoinedRow * nat)) (k : nat) :
  schools_data combined_data !! k
  = school_of k <$> nlargest 20 snd combined_data !! (4 * k).
Proof.
  unfold schools_data.
  rewrite (imap_ext _ (λ i, school_at (4 * 0 + i))) by reflexivity.
  apply schools_from_lookup.
Qed.

Lemma length_by_lookup {A} (l : list A) (m : nat) :
  (∀ k, is_Some (l !! k) ↔ k < m) → length l = m.
Proof.
  intros H. destruct (Nat.lt_trichotomy (length l) m) as [Hlt|[Heq|Hgt]].
  - apply H, lookup_lt_is_Some in Hlt. lia.
  - exact Heq.
  - apply lookup_lt_is_Some, H in Hgt. lia.
Qed.

Lemma nlargest_length {A} (n : nat) (key : A → nat) (l : list A) :
  length (nlargest n key l) = min n (length l).
Proof.
  unfold nlargest. now rewrite length_take, sort_desc_Permutation.
Qed.

Lemma schools_data_length (combined_data : list (JoinedRow * nat)) :
  length (schools_data combined_data) = (min (length combined_data) 20 + 3) / 4.
Proof.
  apply length_by_lookup. intros k.
  rewrite schools_data_lookup, fmap_is_Some, lookup_lt_is_Some, nlargest_length.
  pose proof (Nat.div_mod_eq (min (length combined_data) 20 + 3) 4).
  pose proof (Nat.mod_upper_bound (min (length combined_data) 20 + 3) 4).
  lia.
Qed.

End school_facts.

(** X11. The sample schools sit at every fourth of the twenty densest
    rows: with the rows ranked by decreasing density score, school number
    k + 1 stands at the row of rank 4k + 1, for k below five, and bears
    that row's county.  So there are at most five schools, one for every
    four rows started, and none exactly when there is no row. *)
Theorem schools_at_every_fourth_rank (combined_data : list (JoinedRow * nat)) :
  ∃ ranked,
    ranked ≡ₚ combined_data
    ∧ StronglySorted denser_first ranked
    ∧ (∀ k, schools_data combined_data !! k
            = if decide (k < 5) then school_of k <$> ranked !! (4 * k) else None)
    ∧ length (schools_data combined_data) = (min (length combined_data) 20 + 3) / 4
    ∧ length (schools_data combined_data) ≤ 5
    ∧ (schools_data combined_data = [] ↔ combined_data = []).
Proof.
  exists (sort_desc snd combined_data). split_and!.
  - apply sort_desc_Permutation.
  - apply sort_desc_sorted.
  - intros k. rewrite schools_data_lookup. unfold nlargest.
    destruct (decide (k < 5)) as [Hk|Hk].
    + now rewrite lookup_take_lt by lia.
    + now rewrite lookup_take_ge by lia.
  - apply schools_data_length.
  - rewrite schools_data_length.
    pose proof (Nat.div_mod_eq (min (length combined_data) 20 + 3) 4).
    pose proof (Nat.mod_upper_bound (min (length combined_data) 20 + 3) 4).
    lia.
  - rewrite <- !length_zero_iff_nil, schools_data_length.
    pose proof (Nat.div_mod_eq (min (length combined_data) 20 + 3) 4).
    pose proof (Nat.mod_upper_bound (min (length combined_data) 20 + 3) 4).
    lia.
Qed.

Section buffer_facts.
Variable in_buffer : Q → Point → Point → bool.

Lemma elem_of_map_filter {B} (idx : B → nat) (l : list B) (i : nat) :
  i ∈ map idx l ↔ filter (λ b, idx b = i) l ≠ [].
Proof.
  induction l as [|b l IH].
  - cbn. split; [intros H; inversion H | done].
  - rewrite filter_cons. cbn [map]. rewrite elem_of_cons.
    destruct (decide (idx b = i)) as [E|E].
    + split; [discriminate | now left].
    + rewrite <- IH. split; [intros [?|?]; congruence | now right].
Qed.

Lemma filter_nonempty_Exists {B} (P : B → Prop) `{∀ b, Decision (P b)} (l : list B) :
  filter P l ≠ [] ↔ Exists P l.
Proof.
  induction l as [|b l IH].
  - split; [done | intros HE; inversion HE].
  - rewrite filter_cons, Exists_cons. destruct (decide (P b)) as [Hb|Hb].
    + split; [now left | discriminate].
    + rewrite IH. tauto.
Qed.

Lemma sjoin_buffers_index (distance : Q) (schools : list School) (i : nat)
    (r : JoinedRow * nat) :
  Forall (λ b : nat * School, b.1 = 0 + i)
    (map (λ s, (i, s)) (schools_around in_buffer distance schools r)).
Proof. apply Forall_map, Forall_forall. now intros s _. Qed.

Lemma index_isin_rows (distance : Q) (combined_data : list (JoinedRow * nat))
    (schools : list School) :
  index_isin combined_data (sjoin_buffers in_buffer distance combined_data schools)
  = map (λ r, bool_decide (schools_around in_buffer distance schools r ≠ []))
        combined_data.
Proof.
  unfold index_isin. etransitivity; [|apply imap_const].
  apply imap_ext. intros i r Hi. cbn.
  apply bool_decide_ext. rewrite elem_of_map_filter. unfold sjoin_buffers.
  pose proof (filter_concat_imap fst combined_data
                (λ i r, map (λ s, (i, s)) (schools_around in_buffer distance schools r))
                0 (sjoin_buffers_index distance schools) i r Hi) as Hrows.
  cbn [Nat.add] in Hrows. unfold schools_around in Hrows at 1. rewrite Hrows.
  destruct (schools_around in_buffer distance schools r); cbn; split; congruence.
Qed.

Lemma sjoin_buffers_length (distance : Q) (schools : list School)
    (combined_data : list (JoinedRow * nat)) :
  ∀ h : nat → nat,
    length (concat (imap (λ i r, map (λ s, (h i, s))
                                   (schools_around in_buffer distance schools r))
                         combined_data))
    = sum_list (map (λ r, length (schools_around in_buffer distance schools r))
                    combined_data).
Proof.
  induction combined_data as [|r l IH]; intros h; [reflexivity|].
  rewrite imap_cons. cbn [concat]. rewrite length_app, length_map.
  change (sum_list (map ?f (r :: l))) with (f r + sum_list (map f l)).
  f_equal. apply (IH (h ∘ S)).
Qed.

Lemma within_count_le (distance : Q) (schools : list School)
    (combined_data : list (JoinedRow * nat)) :
  within_count (map (λ r, bool_decide (schools_around in_buffer distance schools r ≠ []))
                    combined_data)
  ≤ sum_list (map (λ r, length (schools_around in_buffer distance schools r))
                  combined_data).
Proof.
  unfold within_count. induction combined_data as [|r l IH]; [reflexivity|].
  cbn [map]. change (sum_list (?a :: ?t)) with (a + sum_list t).
  apply Nat.add_le_mono; [|exact IH].
  destruct (schools_around in_buffer distance schools r); cbn; lia.
Qed.

Lemma within_count_le_length (col : list bool) : within_count col ≤ length col.
Proof.
  unfold within_count. induction col as [|b col IH]; [reflexivity|].
  cbn [map length]. change (sum_list (?a :: ?t)) with (a + sum_list t).
  destruct b; cbn; lia.
Qed.

End buffer_facts.

(** X12. On a table with at least one row the school analysis runs, and
    for each of the three distances the flag of a row is set exactly when
    the buffer of some school holds the row.  The rows flagged, which the
    summary report counts, are never more than the rows of the table nor
    than the rows of the join, which the analysis prints and which holds
    a row once for every buffer around it. *)
Theorem buffer_flags_count_rows_once (in_buffer : Q → Point → Point → bool)
    (combined_data : list (JoinedRow * nat)) :
  combined_data ≠ [] →
  ∃ schools results,
    analysis_2_buffer_analysis_schools in_buffer combined_data = Some (schools, results)
    ∧ map distance_ft results = buffer_distances
    ∧ Forall (λ res,
        length (within_school res) = length combined_data
        ∧ (∀ i r, combined_data !! i = Some r →
             (within_school res !! i = Some true
              ↔ Exists (λ s, in_buffer (distance_ft res) (school_geometry s)
                               (row_point r.1) = true) schools))
        ∧ length (voters_in_buffer res)
          = sum_list (map (λ r, length (schools_around in_buffer (distance_ft res)
                                          schools r)) combined_data)
        ∧ within_count (within_school res) ≤ length (voters_in_buffer res)
        ∧ within_count (within_school res) ≤ length combined_data) results.
Proof.
  intros Hne. unfold analysis_2_buffer_analysis_schools.
  destruct (schools_data combined_data) as [|s0 schools] eqn:Es.
  { exfalso. apply Hne. apply length_zero_iff_nil.
    apply (f_equal length) in Es. rewrite schools_data_length in Es.
    change (length (@nil School)) with 0 in Es.
    pose proof (Nat.div_mod_eq (min (length combined_data) 20 + 3) 4).
    pose proof (Nat.mod_upper_bound (min (length combined_data) 20 + 3) 4).
    lia. }
  eexists. eexists. split; [reflexivity|]. split; [reflexivity|].
  apply Forall_map, Forall_forall. intros d _.
  unfold buffer_result. cbn [within_school voters_in_buffer distance_ft].
  rewrite index_isin_rows. split_and!.
  - apply length_map.
  - intros i r Hi. rewrite list_lookup_fmap, Hi. cbn.
    rewrite <- (filter_nonempty_Exists _ (s0 :: schools)).
    split.
    + intros [= Hb]. now apply bool_decide_eq_true in Hb.
    + intros Hb. f_equal. now apply bool_decide_eq_true.
  - apply (sjoin_buffers_length in_buffer d (s0 :: schools) combined_data id).
  - etransitivity; [apply within_count_le|]. apply Nat.eq_le_incl. symmetry.
    apply (sjoin_buffers_length in_buffer d (s0 :: schools) combined_data id).
  - etransitivity; [apply within_count_le_length|]. now rewrite length_map.
Qed.

Lemma buffer_flags_count_rows_once_two_counties :
  scored_rows ≠ []
  ∧ ∃ schools results,
      analysis_2_buffer_analysis_schools within_feet scored_rows
      = Some (schools, results)
      ∧ map distance_ft results = buffer_distances
      ∧ Forall (λ res,
          length (within_school res) = length scored_rows
          ∧ (∀ i r, scored_rows !! i = Some r →
               (within_school res !! i = Some true
                ↔ Exists (λ s, within_feet (distance_ft res) (school_geometry s)
                                 (row_point r.1) = true) schools))
          ∧ length (voters_in_buffer res)
            = sum_list (map (λ r, length (schools_around within_feet (distance_ft res)
                                            schools r)) scored_rows)
          ∧ within_count (within_school res) ≤ length (voters_in_buffer res)
          ∧ within_count (within_school res) ≤ length scored_rows) results.
Proof.
  split; [discriminate|].
  apply (buffer_flags_count_rows_once within_feet scored_rows). discriminate.
Defined.
